(* ===================================================================== *)
(* Elo rating engine and playoff Monte Carlo simulation                   *)
(*   build_elo_2025.py          : update_elo_ratings                      *)
(*   simulate_playoffs_2025.py  : simulate_game .. run_simulations, main  *)
(*                                                                        *)
(* Python floats are read as real numbers (rounding is not modelled),     *)
(* except in module Doubles, which keeps the binary64 arithmetic to show  *)
(* where the rounded values part from the real ones; Python ints used as  *)
(* counters are nat, scores are integers or NaN.                          *)
(* Dictionaries keyed by team are gmap string _; the seeding literal is   *)
(* an association list in its written order. Console output, and with it  *)
(* the [conference] and [debug] arguments that only steer it, is left     *)
(* out; file and network access are the inputs of the functions.          *)
(* ===================================================================== *)

From Stdlib Require Import Reals Lra Lia ZArith.
From Stdlib Require PrimFloat.
From stdpp Require Import gmap strings list fin_maps sorting.

Local Open Scope R_scope.

(* --------------------------------------------------------------------- *)
(* Exceptions                                                             *)
(* --------------------------------------------------------------------- *)

(** The exceptions the modelled code can raise: a failed dictionary
    lookup by team or by seed number, a lookup of a column that a data
    frame does not have, and [max]/[min] of an empty list. *)
Inductive exn :=
  | KeyError_team (t : string)
  | KeyError_seed (s : nat)
  | KeyError_column (c : string)
  | ValueError.

Inductive result (A : Type) :=
  | Ok (a : A)
  | Raise (e : exn).
Arguments Ok {A} a.
Arguments Raise {A} e.

(* ===================================================================== *)
(* build_elo_2025.py                                                      *)
(* ===================================================================== *)
Module BuildElo.

(** A score cell of the schedule frame: a number of points, or NaN when
    the game has no result. *)
Inductive score :=
  | Pts (n : Z)
  | NaN.

(** [home_score > away_score]: every ordered comparison with NaN is
    False. *)
Definition score_gt (a b : score) : bool :=
  match a, b with
  | Pts x, Pts y => (y <? x)%Z
  | _, _ => false
  end.

(** One row of the schedule frame, as read by the loop. *)
Record game_row := {
  gameday : string;
  home_team : string;
  away_team : string;
  home_score : score;
  away_score : score
}.

(** One entry of [game_log]. *)
Record log_entry := {
  log_gameday : string;
  log_home_team : string;
  log_away_team : string;
  log_home_score : score;
  log_away_score : score;
  elo_home_before : R;
  elo_away_before : R;
  p_home_win : R;
  actual_home_win : Z;
  delta : R;
  elo_home_after : R;
  elo_away_after : R
}.

(** diff = (elo_home + hfa) - elo_away; p_home = 1 / (1 + 10 ** (-diff / 400)),
    on real numbers: the doubles of the code round, so that their value
    can be exactly 1 where this one is below 1, and [**] raises
    OverflowError where the power exceeds the largest double. *)
Definition compute_win_probability (elo_home elo_away hfa : R) : R :=
  let diff := (elo_home + hfa) - elo_away in
  1 / (1 + Rpower 10 (- diff / 400)).

(** [elo_ratings[team]] *)
Definition rating_of (elo_ratings : gmap string R) (team : string) : result R :=
  match elo_ratings !! team with
  | Some r => Ok r
  | None => Raise (KeyError_team team)
  end.

(** The body of the loop of [update_elo_ratings] for one row: the mutated
    dictionary and the record appended to [game_log]. *)
Definition process_row (elo_ratings : gmap string R) (row : game_row)
    (k_factor hfa : R) : result (gmap string R * log_entry) :=
  match rating_of elo_ratings (home_team row) with
  | Raise e => Raise e
  | Ok elo_home =>
    match rating_of elo_ratings (away_team row) with
    | Raise e => Raise e
    | Ok elo_away =>
      let p := compute_win_probability elo_home elo_away hfa in
      let actual_home :=
        if score_gt (home_score row) (away_score row) then 1%Z else 0%Z in
      let d := k_factor * (IZR actual_home - p) in
      let new_elo_home := elo_home + d in
      let new_elo_away := elo_away - d in
      let entry := {|
        log_gameday := gameday row;
        log_home_team := home_team row;
        log_away_team := away_team row;
        log_home_score := home_score row;
        log_away_score := away_score row;
        elo_home_before := elo_home;
        elo_away_before := elo_away;
        p_home_win := p;
        actual_home_win := actual_home;
        delta := d;
        elo_home_after := new_elo_home;
        elo_away_after := new_elo_away |} in
      Ok (<[away_team row := new_elo_away]>
            (<[home_team row := new_elo_home]> elo_ratings), entry)
    end
  end.

(** The loop over [df.iterrows()], with [game_log] as accumulator. *)
Fixpoint update_loop (elo_ratings : gmap string R) (df : list game_row)
    (k_factor hfa : R) (game_log : list log_entry)
    : result (gmap string R * list log_entry) :=
  match df with
  | [] => Ok (elo_ratings, game_log)
  | row :: rest =>
    match process_row elo_ratings row k_factor hfa with
    | Raise e => Raise e
    | Ok (elo_ratings', entry) =>
      update_loop elo_ratings' rest k_factor hfa (game_log ++ [entry])
    end
  end.

Definition update_elo_ratings (elo_ratings : gmap string R) (df : list game_row)
    (k_factor hfa : R) : result (gmap string R * list log_entry) :=
  update_loop elo_ratings df k_factor hfa [].

(** The sum of all ratings held by the dictionary. *)
Definition rating_sum (elo_ratings : gmap string R) : R :=
  map_fold (λ _ r acc, r + acc) 0 elo_ratings.

(** What the loop body records for a row, given the ratings it read. *)
Definition entry_for (row : game_row) (k_factor hfa : R) (e : log_entry) : Prop :=
  log_gameday e = gameday row ∧
  log_home_team e = home_team row ∧
  log_away_team e = away_team row ∧
  log_home_score e = home_score row ∧
  log_away_score e = away_score row ∧
  p_home_win e = compute_win_probability (elo_home_before e) (elo_away_before e) hfa ∧
  actual_home_win e =
    (if score_gt (home_score row) (away_score row) then 1%Z else 0%Z) ∧
  delta e = k_factor * (IZR (actual_home_win e) - p_home_win e) ∧
  elo_home_after e = elo_home_before e + delta e ∧
  elo_away_after e = elo_away_before e - delta e.

(** Both teams of the row have a rating in the dictionary. *)
Definition rated (elo_ratings : gmap string R) (row : game_row) : Prop :=
  is_Some (elo_ratings !! home_team row) ∧ is_Some (elo_ratings !! away_team row).

(** A small table and a schedule, out of date order, with a drawn game
    and a game without result. *)
Definition two_teams : gmap string R := <["DEN" := 1500]> (<["KC" := 1480]> ∅).

Definition sample_rows : list game_row :=
  [ {| gameday := "2025-11-16"; home_team := "DEN"; away_team := "KC";
       home_score := Pts 22; away_score := Pts 19 |};
    {| gameday := "2025-09-07"; home_team := "KC"; away_team := "DEN";
       home_score := Pts 17; away_score := Pts 17 |};
    {| gameday := "2025-12-25"; home_team := "KC"; away_team := "DEN";
       home_score := NaN; away_score := NaN |} ].

(** initialize_elo_ratings(df, initial_elo): every team that is home or
    away in some row, at the starting rating. *)
Definition initialize_elo_ratings (df : list game_row) (initial_elo : R)
    : gmap string R :=
  let home_teams := home_team <$> df in
  let away_teams := away_team <$> df in
  let all_teams : gset string := list_to_set (home_teams ++ away_teams) in
  gset_to_gmap initial_elo all_teams.

(** The assignments that the records of a log stand for, made in the
    order of the log on a table. *)
Definition replay (elo_ratings : gmap string R) (game_log : list log_entry)
    : gmap string R :=
  foldl (λ m e, <[log_away_team e := elo_away_after e]>
                  (<[log_home_team e := elo_home_after e]> m))
        elo_ratings game_log.

(** The teams named by a schedule. *)
Definition teams_of (df : list game_row) : gset string :=
  list_to_set ((home_team <$> df) ++ (away_team <$> df)).

(** The records of [game_log] are those of the rows of [df] processed in
    order from the table [elo_ratings], and [final] is the table left:
    row by row, the ratings recorded as before the game are those the
    table holds for the two teams when the row is reached, the record is
    the one computed from them and from the scores of the row, and the
    table goes on with the two ratings after the game stored in it, the
    home team's first. *)
Fixpoint normal_updates (elo_ratings : gmap string R) (df : list game_row)
    (k_factor hfa : R) (game_log : list log_entry) (final : gmap string R)
    : Prop :=
  match df, game_log with
  | [], [] => final = elo_ratings
  | row :: df', e :: game_log' =>
    elo_ratings !! home_team row = Some (elo_home_before e) ∧
    elo_ratings !! away_team row = Some (elo_away_before e) ∧
    entry_for row k_factor hfa e ∧
    normal_updates (<[away_team row := elo_away_after e]>
                      (<[home_team row := elo_home_after e]> elo_ratings))
                   df' k_factor hfa game_log' final
  | _, _ => False
  end.

End BuildElo.

(* ===================================================================== *)
(* simulate_playoffs_2025.py                                              *)
(* ===================================================================== *)
Module Playoffs.

(** PLAYOFF_SEEDS["AFC"] and PLAYOFF_SEEDS["NFC"], in the order written. *)
Definition PLAYOFF_SEEDS_AFC : list (nat * string) :=
  [(1%nat, "DEN"); (2%nat, "NE"); (3%nat, "JAX"); (4%nat, "PIT");
   (5%nat, "HOU"); (6%nat, "BUF"); (7%nat, "LAC")]%string.

Definition PLAYOFF_SEEDS_NFC : list (nat * string) :=
  [(1%nat, "SEA"); (2%nat, "CHI"); (3%nat, "PHI"); (4%nat, "CAR");
   (5%nat, "LA"); (6%nat, "SF"); (7%nat, "GB")]%string.

(** Every team named by the seeding. *)
Definition seeded_teams : list string :=
  PLAYOFF_SEEDS_AFC.*2 ++ PLAYOFF_SEEDS_NFC.*2.

(** One resolved game: who hosted, the probability computed for the host,
    the variate drawn and the winner. The list of these, in the order of
    the calls to [simulate_game], is the play-by-play of a run. *)
Record game := {
  g_home : string;
  g_away : string;
  g_neutral : bool;
  g_p_home_win : R;
  g_u : R;
  g_winner : string
}.

(** The state the simulation runs in: numpy's global generator, as the
    sequence of variates it will yield and the number already drawn, and
    the games resolved so far. *)
Record world := {
  np_random : nat → R;
  drawn : nat;
  played : list game
}.

(** Computations that read and advance the world and may raise. The
    world reached when an exception is raised is kept. *)
Definition M (A : Type) : Type := world → result A * world.

Definition ret {A} (a : A) : M A := λ w, (Ok a, w).

Definition bind {A B} (m : M A) (f : A → M B) : M B :=
  λ w, match m w with
       | (Ok a, w') => f a w'
       | (Raise e, w') => (Raise e, w')
       end.

Definition lift {A} (r : result A) : M A := λ w, (r, w).

Notation "'let*' x := m 'in' k" := (bind m (λ x, k))
  (at level 10, x name, m at level 100, k at level 200).
Notation "'let*' ' pat := m 'in' k" := (bind m (λ x, match x with pat => k end))
  (at level 10, pat pattern, m at level 100, k at level 200).

(** u = np.random.random() *)
Definition random : M R :=
  λ w, (Ok (np_random w (drawn w)),
        {| np_random := np_random w; drawn := S (drawn w); played := played w |}).

(** Bookkeeping of the model: the game just resolved joins the
    play-by-play. *)
Definition record_game (g : game) : M unit :=
  λ w, (Ok tt,
        {| np_random := np_random w; drawn := drawn w; played := played w ++ [g] |}).

(** diff without hfa at a neutral site; p = 1 / (1 + 10 ** (-diff / 400)),
    on real numbers; [Doubles.compute_win_probability] is the same
    expression on doubles. *)
Definition compute_win_probability (elo_home elo_away hfa : R) (is_neutral : bool) : R :=
  let diff := if is_neutral then elo_home - elo_away
              else (elo_home + hfa) - elo_away in
  1 / (1 + Rpower 10 (- diff / 400)).

(** [elo_dict[team]] *)
Definition rating_of (elo_dict : gmap string R) (team : string) : result R :=
  match elo_dict !! team with
  | Some r => Ok r
  | None => Raise (KeyError_team team)
  end.

Definition simulate_game (team_home team_away : string) (elo_dict : gmap string R)
    (hfa : R) (is_neutral : bool) : M (string * R) :=
  let* elo_home := lift (rating_of elo_dict team_home) in
  let* elo_away := lift (rating_of elo_dict team_away) in
  let p_home_win := compute_win_probability elo_home elo_away hfa is_neutral in
  let* u := random in
  let winner := if Rlt_dec u p_home_win then team_home else team_away in
  let* _ := record_game {| g_home := team_home; g_away := team_away;
                           g_neutral := is_neutral; g_p_home_win := p_home_win;
                           g_u := u; g_winner := winner |} in
  ret (winner, p_home_win).

(** [seeds[seed]] *)
Fixpoint seed_team (seeds : list (nat * string)) (seed : nat) : result string :=
  match seeds with
  | [] => Raise (KeyError_seed seed)
  | (s, t) :: rest => if decide (s = seed) then Ok t else seed_team rest seed
  end.

(** {team: seed for seed, team in seeds.items()} *)
Definition team_to_seed (seeds : list (nat * string)) : gmap string nat :=
  foldl (λ m st, <[st.2 := st.1]> m) ∅ seeds.

(** [team_to_seed[team] for team in teams] *)
Fixpoint seeds_of_teams (t2s : gmap string nat) (teams : list string)
    : result (list nat) :=
  match teams with
  | [] => Ok []
  | team :: rest =>
    match t2s !! team with
    | None => Raise (KeyError_team team)
    | Some s =>
      match seeds_of_teams t2s rest with
      | Ok ss => Ok (s :: ss)
      | Raise e => Raise e
      end
    end
  end.

(** sorted(...), on seed numbers *)
Definition sorted (l : list nat) : list nat := merge_sort le l.

(** max(...) and min(...), which raise ValueError on an empty list *)

Definition py_max (l : list nat) : result nat :=
  match l with
  | [] => Raise ValueError
  | x :: l' => Ok (foldl Nat.max x l')
  end.

Definition py_min (l : list nat) : result nat :=
  match l with
  | [] => Raise ValueError
  | x :: l' => Ok (foldl Nat.min x l')
  end.

(** The loop over [matchups] of [simulate_wild_card]. *)
Fixpoint wild_card_loop (matchups : list (nat * nat)) (seeds : list (nat * string))
    (elo_dict : gmap string R) (hfa : R) (winners : list string) : M (list string) :=
  match matchups with
  | [] => ret winners
  | (seed_home, seed_away) :: rest =>
    let* team_home := lift (seed_team seeds seed_home) in
    let* team_away := lift (seed_team seeds seed_away) in
    let* ' (winner, _) := simulate_game team_home team_away elo_dict hfa false in
    wild_card_loop rest seeds elo_dict hfa (winners ++ [winner])
  end.

Definition simulate_wild_card (seeds : list (nat * string))
    (elo_dict : gmap string R) (hfa : R) : M (list string) :=
  let* seed_1 := lift (seed_team seeds 1) in
  wild_card_loop [(2, 7); (3, 6); (4, 5)]%nat seeds elo_dict hfa [seed_1].

Definition simulate_divisional (wild_card_winners : list string)
    (seeds : list (nat * string)) (elo_dict : gmap string R) (hfa : R)
    : M (list string) :=
  let* seeds_left := lift (seeds_of_teams (team_to_seed seeds) wild_card_winners) in
  let remaining_seeds := sorted seeds_left in
  let* seed_1_team := lift (seed_team seeds 1) in
  let* lowest_seed := lift (py_max remaining_seeds) in
  let* lowest_team := lift (seed_team seeds lowest_seed) in
  let other_seeds :=
    filter (λ s, s ≠ 1%nat ∧ s ≠ lowest_seed) remaining_seeds in
  let* higher_seed := lift (py_min other_seeds) in
  let* lower_seed := lift (py_max other_seeds) in
  let* ' (winner_1, _) := simulate_game seed_1_team lowest_team elo_dict hfa false in
  let* team_higher := lift (seed_team seeds higher_seed) in
  let* team_lower := lift (seed_team seeds lower_seed) in
  let* ' (winner_2, _) := simulate_game team_higher team_lower elo_dict hfa false in
  ret [winner_1; winner_2].

Definition simulate_conference_championship (divisional_winners : list string)
    (seeds : list (nat * string)) (elo_dict : gmap string R) (hfa : R)
    : M string :=
  let* seeds_left := lift (seeds_of_teams (team_to_seed seeds) divisional_winners) in
  let remaining_seeds := sorted seeds_left in
  let* higher_seed := lift (py_min remaining_seeds) in
  let* lower_seed := lift (py_max remaining_seeds) in
  let* team_home := lift (seed_team seeds higher_seed) in
  let* team_away := lift (seed_team seeds lower_seed) in
  let* ' (winner, _) := simulate_game team_home team_away elo_dict hfa false in
  ret winner.

Definition simulate_super_bowl (afc_champ nfc_champ : string)
    (elo_dict : gmap string R) (hfa : R) : M string :=
  let* ' (winner, _) := simulate_game afc_champ nfc_champ elo_dict hfa true in
  ret winner.

(** The dictionary returned by [simulate_one_bracket]. *)
Record bracket := {
  divisional : list string;
  conf_champ : list string;
  super_bowl : list string;
  champion : option string
}.

Definition simulate_one_bracket (elo_dict : gmap string R) (hfa : R) : M bracket :=
  let afc_seeds := PLAYOFF_SEEDS_AFC in
  let* afc_wc_winners := simulate_wild_card afc_seeds elo_dict hfa in
  let* afc_div_winners := simulate_divisional afc_wc_winners afc_seeds elo_dict hfa in
  let* afc_champ := simulate_conference_championship afc_div_winners afc_seeds elo_dict hfa in
  let nfc_seeds := PLAYOFF_SEEDS_NFC in
  let* nfc_wc_winners := simulate_wild_card nfc_seeds elo_dict hfa in
  let* nfc_div_winners := simulate_divisional nfc_wc_winners nfc_seeds elo_dict hfa in
  let* nfc_champ := simulate_conference_championship nfc_div_winners nfc_seeds elo_dict hfa in
  let* champ := simulate_super_bowl afc_champ nfc_champ elo_dict hfa in
  ret {| divisional := afc_wc_winners ++ nfc_wc_winners;
         conf_champ := afc_div_winners ++ nfc_div_winners;
         super_bowl := [afc_champ; nfc_champ];
         champion := Some champ |}.

(** The value held for a team by the [counts] defaultdict. *)
Record tally := {
  n_divisional : nat;
  n_conf_champ : nat;
  n_super_bowl : nat;
  n_champion : nat
}.

Definition zero_tally : tally :=
  {| n_divisional := 0; n_conf_champ := 0; n_super_bowl := 0; n_champion := 0 |}.

(** [counts[team]]: the entry, created at zero on first use. *)
Definition tally_of (counts : gmap string tally) (team : string) : tally :=
  default zero_tally (counts !! team).

(** The tally with one of its counters incremented. *)
Definition inc_divisional (c : tally) : tally :=
  {| n_divisional := S (n_divisional c); n_conf_champ := n_conf_champ c;
     n_super_bowl := n_super_bowl c; n_champion := n_champion c |}.

Definition inc_conf_champ (c : tally) : tally :=
  {| n_divisional := n_divisional c; n_conf_champ := S (n_conf_champ c);
     n_super_bowl := n_super_bowl c; n_champion := n_champion c |}.

Definition inc_super_bowl (c : tally) : tally :=
  {| n_divisional := n_divisional c; n_conf_champ := n_conf_champ c;
     n_super_bowl := S (n_super_bowl c); n_champion := n_champion c |}.

Definition inc_champion (c : tally) : tally :=
  {| n_divisional := n_divisional c; n_conf_champ := n_conf_champ c;
     n_super_bowl := n_super_bowl c; n_champion := S (n_champion c) |}.

(** counts[team]['divisional'] += 1, and its three siblings *)
Definition bump_divisional (counts : gmap string tally) (team : string) :=
  <[team := inc_divisional (tally_of counts team)]> counts.

Definition bump_conf_champ (counts : gmap string tally) (team : string) :=
  <[team := inc_conf_champ (tally_of counts team)]> counts.

Definition bump_super_bowl (counts : gmap string tally) (team : string) :=
  <[team := inc_super_bowl (tally_of counts team)]> counts.

Definition bump_champion (counts : gmap string tally) (team : string) :=
  <[team := inc_champion (tally_of counts team)]> counts.

(** Truth value of [results['champion']]: None and the empty string are
    false. *)
Definition truthy (champ : option string) : bool :=
  match champ with
  | None => false
  | Some s => negb (String.eqb s "")
  end.

(** "Update counts": the four updates made after one bracket. *)
Definition update_counts (counts : gmap string tally) (results : bracket)
    : gmap string tally :=
  let c1 := foldl bump_divisional counts (divisional results) in
  let c2 := foldl bump_conf_champ c1 (conf_champ results) in
  let c3 := foldl bump_super_bowl c2 (super_bowl results) in
  if truthy (champion results)
  then bump_champion c3 (default ""%string (champion results))
  else c3.

(** for sim in range(num_sims): the brackets are collected next to the
    counts, to speak of the outcome of each trial. *)
Fixpoint trials (n : nat) (elo_dict : gmap string R) (hfa : R)
    (counts : gmap string tally) (brackets : list bracket)
    : M (gmap string tally * list bracket) :=
  match n with
  | O => ret (counts, brackets)
  | S n' =>
    let* results := simulate_one_bracket elo_dict hfa in
    trials n' elo_dict hfa (update_counts counts results) (brackets ++ [results])
  end.

(** One row of the probability frame. *)
Record prob_row := {
  team : string;
  pct_make_divisional : R;
  pct_make_conf_champ : R;
  pct_make_superbowl : R;
  pct_win_superbowl : R
}.

Definition row_of (num_sims : nat) (item : string * tally) : prob_row :=
  {| team := item.1;
     pct_make_divisional := INR (n_divisional item.2) / INR num_sims;
     pct_make_conf_champ := INR (n_conf_champ item.2) / INR num_sims;
     pct_make_superbowl := INR (n_super_bowl item.2) / INR num_sims;
     pct_win_superbowl := INR (n_champion item.2) / INR num_sims |}.

(** prob_data: one row per item of [counts]. *)
Definition prob_data (num_sims : nat) (counts : gmap string tally) : list prob_row :=
  row_of num_sims <$> map_to_list counts.

Definition by_win_desc (a b : prob_row) : Prop :=
  pct_win_superbowl b <= pct_win_superbowl a.

Definition by_win_desc_dec : RelDecision by_win_desc :=
  λ a b, Rle_dec (pct_win_superbowl b) (pct_win_superbowl a).

(** pd.DataFrame(prob_data).sort_values('pct_win_superbowl', ascending=False):
    a frame built from no rows has no columns, and sorting it by a column
    raises KeyError. *)
Definition sort_values (rows : list prob_row) : result (list prob_row) :=
  match rows with
  | [] => Raise (KeyError_column "pct_win_superbowl")
  | _ => Ok (@merge_sort _ by_win_desc by_win_desc_dec rows)
  end.

(** The probability frame, with the bracket of every trial. *)
Definition run_trials (elo_dict : gmap string R) (hfa : R) (num_sims : nat)
    : M (list prob_row * list bracket) :=
  let* ' (counts, brackets) := trials num_sims elo_dict hfa ∅ [] in
  let* prob_df := lift (sort_values (prob_data num_sims counts)) in
  ret (prob_df, brackets).

Definition run_simulations (elo_dict : gmap string R) (hfa : R) (num_sims : nat)
    : M (list prob_row) :=
  let* ' (prob_df, _) := run_trials elo_dict hfa num_sims in
  ret prob_df.

Section Main.
(** numpy's generator: the variates it yields once seeded with a value. *)
Variable mt19937 : Z → nat → R.

(** np.random.seed(seed) *)
Definition np_random_seed (seed : Z) : M unit :=
  λ w, (Ok tt, {| np_random := mt19937 seed; drawn := 0; played := played w |}).

(** [main], from the seeding of the generator to the frame; the loaded
    rating table and the parsed arguments are its inputs. *)
Definition main (seed : option Z) (elo_dict : gmap string R) (hfa : R)
    (sims : nat) : M (list prob_row) :=
  let* _ := match seed with
            | Some s => np_random_seed s
            | None => ret tt
            end in
  run_simulations elo_dict hfa sims.
End Main.

(** The world a process starts in: some state of the generator, nothing
    played. *)
Definition start (entropy : nat → R) : world :=
  {| np_random := entropy; drawn := 0; played := [] |}.

(* --------------------------------------------------------------------- *)
(* Vocabulary of the statements                                           *)
(* --------------------------------------------------------------------- *)

(** The game resolved by [simulate_game] in world [w] for a host rated
    [elo_home] and a visitor rated [elo_away]. *)
Definition play (team_home team_away : string) (elo_home elo_away hfa : R)
    (is_neutral : bool) (w : world) : game :=
  let p := compute_win_probability elo_home elo_away hfa is_neutral in
  let u := np_random w (drawn w) in
  {| g_home := team_home; g_away := team_away; g_neutral := is_neutral;
     g_p_home_win := p; g_u := u;
     g_winner := if Rlt_dec u p then team_home else team_away |}.

(** The world after one more draw and one more game. *)
Definition after (w : world) (g : game) : world :=
  {| np_random := np_random w; drawn := S (drawn w); played := played w ++ [g] |}.

(** Number of occurrences of a team in a list. *)
Definition occ (t : string) (l : list string) : nat :=
  length (filter (t =.) l).

(** Championships counted over all teams of [counts]. *)
Definition total_champion (counts : gmap string tally) : nat :=
  sum_list_with (λ item, n_champion item.2) (map_to_list counts).

(** Sum of the column pct_win_superbowl. *)
Definition sum_win (rows : list prob_row) : R :=
  foldr (λ r acc, pct_win_superbowl r + acc) 0 rows.

(** The listed games (host, visitor), resolved one after the other; the
    winners in the same order. *)
Fixpoint play_all (is_neutral : bool) (games : list (string * string))
    (elo_dict : gmap string R) (hfa : R) : M (list string) :=
  match games with
  | [] => ret []
  | (h, a) :: rest =>
    let* ' (x, _) := simulate_game h a elo_dict hfa is_neutral in
    let* xs := play_all is_neutral rest elo_dict hfa in
    ret (x :: xs)
  end.

(** [g] is a game of host [ha.1] against visitor [ha.2], both rated, won
    by one of the two. *)
Definition game_of (is_neutral : bool) (elo_dict : gmap string R)
    (ha : string * string) (g : game) : Prop :=
  g_home g = ha.1 ∧ g_away g = ha.2 ∧ g_neutral g = is_neutral ∧
  (g_winner g = ha.1 ∨ g_winner g = ha.2) ∧
  is_Some (elo_dict !! ha.1) ∧ is_Some (elo_dict !! ha.2).

(** The world [w'] is [w] after the games [gs], one draw each. *)
Definition advanced (w : world) (gs : list game) (w' : world) : Prop :=
  np_random w' = np_random w ∧
  drawn w' = (drawn w + length gs)%nat ∧
  played w' = played w ++ gs.

(** The three rounds of one conference, as [simulate_one_bracket] chains
    them. *)
Definition conference (seeds : list (nat * string)) (elo_dict : gmap string R)
    (hfa : R) : M (list string * list string * string) :=
  let* wc := simulate_wild_card seeds elo_dict hfa in
  let* dv := simulate_divisional wc seeds elo_dict hfa in
  let* ch := simulate_conference_championship dv seeds elo_dict hfa in
  ret (wc, dv, ch).

(** The shape of the dictionary a bracket returns: eight seeded teams
    reach the divisional round, and each later list is drawn, with
    multiplicity, from the one before. *)
Definition good_bracket (b : bracket) : Prop :=
  divisional b ⊆+ seeded_teams ∧ length (divisional b) = 8%nat ∧
  conf_champ b ⊆+ divisional b ∧
  super_bowl b ⊆+ conf_champ b ∧
  ∃ c, champion b = Some c ∧ [c] ⊆+ super_bowl b.

(** A game resolved between two teams that both have a rating. *)
Definition fair (elo_dict : gmap string R) (g : game) : Prop :=
  is_Some (elo_dict !! g_home g) ∧ is_Some (elo_dict !! g_away g).

(** The value of pct_win_superbowl found in the frame for a team: that
    of its row, and 0 when the team has no row. *)
Fixpoint pct_win_of (rows : list prob_row) (t : string) : R :=
  match rows with
  | [] => 0
  | r :: rest => if decide (team r = t) then pct_win_superbowl r else pct_win_of rest t
  end.

(** Sum of [f] over a list of teams. *)
Definition sum_over (teams : list string) (f : string → R) : R :=
  foldr (λ t acc, f t + acc) 0 teams.

(** Every seeded team has a rating. *)
Definition all_rated (elo_dict : gmap string R) : Prop :=
  Forall (λ t, is_Some (elo_dict !! t)) seeded_teams.

(** A table rating every seeded team 1500, the same table without one
    team, and a generator that yields 0 for ever. *)
Definition level_table : gmap string R :=
  list_to_map ((λ t, (t, 1500)) <$> seeded_teams).

Definition table_without (t : string) : gmap string R := delete t level_table.

Definition zeros : nat → R := λ _, 0.

(** The rating difference the probability is computed from. *)
Definition rating_diff (elo_home elo_away hfa : R) (is_neutral : bool) : R :=
  if is_neutral then elo_home - elo_away else (elo_home + hfa) - elo_away.

(** Team [x] holds a smaller seed number than team [y]. *)
Definition seeded_above (seeds : list (nat * string)) (x y : string) : Prop :=
  ∃ sx sy, seed_team seeds sx = Ok x ∧ seed_team seeds sy = Ok y ∧ (sx < sy)%nat.

(** The six games of one conference, in the order they are resolved:
    three wild-card games at fixed seeds, two divisional games after
    reseeding, and the conference championship. *)
Definition conference_games (seeds : list (nat * string))
    (elo_dict : gmap string R) (gs : list game) : Prop :=
  ∃ t1 t2 t3 t4 t5 t6 t7 g1 g2 g3 g4 g5 g6,
    gs = [g1; g2; g3; g4; g5; g6] ∧
    (seed_team seeds 1 = Ok t1 ∧ seed_team seeds 2 = Ok t2 ∧
     seed_team seeds 3 = Ok t3 ∧ seed_team seeds 4 = Ok t4 ∧
     seed_team seeds 5 = Ok t5 ∧ seed_team seeds 6 = Ok t6 ∧
     seed_team seeds 7 = Ok t7) ∧
    (game_of false elo_dict (t2, t7) g1 ∧ game_of false elo_dict (t3, t6) g2 ∧
     game_of false elo_dict (t4, t5) g3) ∧
    (game_of false elo_dict (t1, g_away g4) g4 ∧
     game_of false elo_dict (g_home g5, g_away g5) g5 ∧
     [g_away g4; g_home g5; g_away g5] ≡ₚ [g_winner g1; g_winner g2; g_winner g3] ∧
     seeded_above seeds (g_home g5) (g_away g5) ∧
     seeded_above seeds (g_away g5) (g_away g4)) ∧
    (game_of false elo_dict (g_home g6, g_away g6) g6 ∧
     [g_home g6; g_away g6] ≡ₚ [g_winner g4; g_winner g5] ∧
     seeded_above seeds (g_home g6) (g_away g6)).

(** The brackets [bs] are what successive calls of [simulate_one_bracket]
    return from world [w], the last one leaving world [w']. *)
Fixpoint bracket_run (elo_dict : gmap string R) (hfa : R) (w : world)
    (bs : list bracket) (w' : world) : Prop :=
  match bs with
  | [] => w' = w
  | b :: rest =>
    ∃ w1, simulate_one_bracket elo_dict hfa w = (Ok b, w1) ∧
          bracket_run elo_dict hfa w1 rest w'
  end.

(** Number of brackets in which a team is in the list of a round, and
    number of brackets it is the champion of. *)
Definition reached (round : bracket → list string) (t : string)
    (bs : list bracket) : nat :=
  length (filter (λ b, t ∈ round b) bs).

Definition won (t : string) (bs : list bracket) : nat :=
  length (filter (λ b, champion b = Some t) bs).

(** Sum of a column of the frame. *)
Definition sum_col (f : prob_row → R) (rows : list prob_row) : R :=
  foldr (λ r acc, f r + acc) 0 rows.

(** A counter summed over all teams of [counts]. *)
Definition total (f : tally → nat) (counts : gmap string tally) : nat :=
  sum_list_with (λ item, f item.2) (map_to_list counts).

(** A game resolved as [simulate_game] does from the variate [u]: the
    probability is the one computed from the two ratings of the table,
    and the host wins exactly when the variate is below it. *)
Definition by_the_book (elo_dict : gmap string R) (hfa u : R) (g : game) : Prop :=
  g_u g = u ∧
  (∃ eh ea, elo_dict !! g_home g = Some eh ∧ elo_dict !! g_away g = Some ea ∧
     g_p_home_win g = compute_win_probability eh ea hfa (g_neutral g)) ∧
  (u < g_p_home_win g → g_winner g = g_home g) ∧
  (g_p_home_win g <= u → g_winner g = g_away g).

(** The generator yields the stream [e], every variate drawn so far went
    into one game, and the i-th game was resolved from the i-th variate. *)
Definition follows_stream (elo_dict : gmap string R) (hfa : R) (e : nat → R)
    (w : world) : Prop :=
  np_random w = e ∧ length (played w) = drawn w ∧
  ∀ i g, played w !! i = Some g → by_the_book elo_dict hfa (e i) g.

(** A computation that keeps a property of the world. *)
Definition keeps (P : world → Prop) {A} (m : M A) : Prop :=
  ∀ w, P w → P (m w).2.

(** Two worlds that have drawn as many variates and whose generators
    agree on the variates from there up to index [k], excluded. *)
Definition same_ahead (k : nat) (w1 w2 : world) : Prop :=
  drawn w1 = drawn w2 ∧
  ∀ i, (drawn w1 ≤ i < k)%nat → np_random w1 i = np_random w2 i.

(** A computation that only draws from the generator: it never goes back
    in the stream nor replaces it, and what it returns depends on the
    world through the variates it draws only. *)
Definition draws_only {A} (m : M A) : Prop :=
  (∀ w, (drawn w ≤ drawn (m w).2)%nat ∧ np_random (m w).2 = np_random w) ∧
  (∀ k w1 w2, same_ahead k w1 w2 → (drawn (m w1).2 ≤ k)%nat →
     (m w1).1 = (m w2).1 ∧ same_ahead k (m w1).2 (m w2).2).

End Playoffs.

(* ===================================================================== *)
(* The win probability in binary64                                        *)
(* ===================================================================== *)
Module Doubles.
Import PrimFloat.
Local Open Scope float_scope.

(** A Python float is an IEEE 754 binary64 number, and +, -, * and / on
    floats are the correctly rounded operations, those of the kernel's
    floats. [x ** y] on floats is the pow of the C library, whose results
    the standard does not fix bit for bit: it is a parameter. *)
Section Pow.
Variable pow : float → float → float.

(** compute_win_probability of simulate_playoffs_2025.py, on doubles *)
Definition compute_win_probability (elo_home elo_away hfa : float)
    (is_neutral : bool) : float :=
  let diff := if is_neutral then elo_home - elo_away
              else (elo_home + hfa) - elo_away in
  1 / (1 + pow 10 (- diff / 400)).
End Pow.

(** [10 ** y] as CPython 3.11 with glibc returns it at the three
    exponents met below, 197/400, -197/400 and -6555/400 as doubles (the
    values are the doubles nearest to the real powers); nan stands for
    every argument that is not listed. *)
Definition libm_pow (x y : float) : float :=
  if negb (x =? 10) then nan
  else if y =? 0x1.f851eb851eb85p-2 then 0x1.8dd765b2e50ddp+1
  else if y =? -0x1.f851eb851eb85p-2 then 0x1.49753a76ebdc6p-2
  else if y =? -0x1.0633333333333p+4 then 0x1.79e942557cfc7p-55
  else nan.

End Doubles.

(* ===================================================================== *)
(* Facts about the rating engine                                          *)
(* ===================================================================== *)
Module EloFacts.
Import BuildElo.

Lemma pow10_pos x : 0 < Rpower 10 x.
Proof. unfold Rpower. apply exp_pos. Qed.

Lemma win_probability_bounds a b hfa :
  0 < compute_win_probability a b hfa < 1.
Proof.
  unfold compute_win_probability.
  pose proof (pow10_pos (- (a + hfa - b) / 400)) as Hx.
  set (x := Rpower 10 _) in *.
  split.
  - apply Rdiv_lt_0_compat; lra.
  - apply Rmult_lt_reg_r with (1 + x); [lra|].
    unfold Rdiv. rewrite Rmult_assoc, Rinv_l by lra. lra.
Qed.

Section RatingSum.
Implicit Types (m : gmap string R) (t : string).

Local Lemma sum_step_comm (j1 j2 : string) (z1 z2 y : R) :
  z1 + (z2 + y) = z2 + (z1 + y).
Proof. ring. Qed.

Lemma rating_sum_empty : rating_sum ∅ = 0.
Proof. unfold rating_sum. apply map_fold_empty. Qed.

Lemma rating_sum_insert_fresh m t r :
  m !! t = None → rating_sum (<[t:=r]> m) = r + rating_sum m.
Proof.
  intros Hm. unfold rating_sum.
  rewrite map_fold_insert_L; [done| |done].
  intros. apply sum_step_comm; done.
Qed.

Lemma rating_sum_delete m t r :
  m !! t = Some r → rating_sum m = r + rating_sum (delete t m).
Proof.
  intros Hm. unfold rating_sum.
  rewrite (map_fold_delete_L _ _ t r m); [done| |done].
  intros. apply sum_step_comm; done.
Qed.

(** Overwriting the rating of a team changes the sum by the change of
    that rating. *)
Lemma rating_sum_overwrite m t old new :
  m !! t = Some old → rating_sum (<[t:=new]> m) = rating_sum m - old + new.
Proof.
  intros Hm. rewrite <-insert_delete_eq.
  rewrite rating_sum_insert_fresh by apply lookup_delete_eq.
  rewrite (rating_sum_delete m t old Hm). ring.
Qed.
End RatingSum.

(** A row whose two teams have ratings is processed without error, and
    the record describes what was done. *)
Lemma process_row_rated elo row k hfa rh ra :
  elo !! home_team row = Some rh →
  elo !! away_team row = Some ra →
  ∃ e, process_row elo row k hfa =
         Ok (<[away_team row := elo_away_after e]>
               (<[home_team row := elo_home_after e]> elo), e) ∧
       entry_for row k hfa e ∧
       elo_home_before e = rh ∧ elo_away_before e = ra.
Proof.
  intros Hh Ha. unfold process_row, rating_of. rewrite Hh, Ha. cbv zeta.
  match goal with |- context [Ok (_, ?e)] => exists e end.
  split; [reflexivity|].
  unfold entry_for; simpl. repeat split; reflexivity.
Qed.

(** Moving [d] points from one rated team to a different one leaves the
    sum of the ratings as it was. *)
Lemma transfer_keeps_sum elo (h a : string) rh ra d :
  elo !! h = Some rh → elo !! a = Some ra → h ≠ a →
  rating_sum (<[a := ra - d]> (<[h := rh + d]> elo)) = rating_sum elo.
Proof.
  intros Hh Ha Hne.
  rewrite (rating_sum_overwrite _ a ra) by (by rewrite lookup_insert_ne).
  rewrite (rating_sum_overwrite _ h rh) by done.
  ring.
Qed.

Lemma process_row_keeps_teams elo row k hfa elo' e t :
  process_row elo row k hfa = Ok (elo', e) →
  is_Some (elo' !! t) ↔ is_Some (elo !! t).
Proof.
  unfold process_row, rating_of.
  destruct (elo !! home_team row) as [rh|] eqn:Hh; [|discriminate].
  destruct (elo !! away_team row) as [ra|] eqn:Ha; [|discriminate].
  intros [= <- _].
  rewrite !lookup_insert_is_Some.
  split; [|tauto].
  intros [<-|[_ [<-|[_ ?]]]]; eauto.
Qed.

(** The loop appends one record per row, in the order of the rows,
    whatever the rows hold besides two rated teams. *)
Lemma update_loop_rated df : ∀ elo k hfa acc,
  Forall (rated elo) df →
  ∃ elo' entries,
    update_loop elo df k hfa acc = Ok (elo', acc ++ entries) ∧
    Forall2 (λ row e, entry_for row k hfa e) df entries ∧
    (∀ t, is_Some (elo' !! t) ↔ is_Some (elo !! t)) ∧
    (Forall (λ row, home_team row ≠ away_team row) df →
     rating_sum elo' = rating_sum elo).
Proof.
  induction df as [|row df IH]; intros elo k hfa acc Hr.
  - exists elo, []. simpl. rewrite app_nil_r. repeat split; auto.
  - apply Forall_cons in Hr as [[[rh Hh] [ra Ha]] Hr].
    destruct (process_row_rated elo row k hfa rh ra Hh Ha)
      as (e & He & Hent & Hbh & Hba).
    simpl. rewrite He.
    set (elo1 := <[away_team row := _]> _) in *.
    assert (Hkeep : ∀ t, is_Some (elo1 !! t) ↔ is_Some (elo !! t))
      by (intros t; eapply process_row_keeps_teams; exact He).
    destruct (IH elo1 k hfa (acc ++ [e]))
      as (elo' & entries & Hrun & Hall & Hdom & Hsum).
    { eapply Forall_impl; [exact Hr|]. intros r [H1 H2].
      split; apply Hkeep; assumption. }
    exists elo', (e :: entries). split; [|split; [|split]].
    + rewrite Hrun. by rewrite <-app_assoc.
    + by constructor.
    + intros t. rewrite Hdom. apply Hkeep.
    + intros Hne. apply Forall_cons in Hne as [Hne1 Hne].
      rewrite (Hsum Hne). subst elo1.
      destruct Hent as (_ & _ & _ & _ & _ & _ & _ & _ & Hah & Haa).
      rewrite Hah, Haa, Hbh, Hba.
      by apply transfer_keeps_sum.
Qed.

Lemma update_elo_ratings_rated elo df k hfa :
  Forall (rated elo) df →
  ∃ elo' game_log,
    update_elo_ratings elo df k hfa = Ok (elo', game_log) ∧
    Forall2 (λ row e, entry_for row k hfa e) df game_log ∧
    (∀ t, is_Some (elo' !! t) ↔ is_Some (elo !! t)) ∧
    (Forall (λ row, home_team row ≠ away_team row) df →
     rating_sum elo' = rating_sum elo).
Proof.
  intros Hr. unfold update_elo_ratings.
  destruct (update_loop_rated df elo k hfa [] Hr) as (elo' & entries & H & ?).
  exists elo', entries. by rewrite H.
Qed.

(** The loop makes the updates of [normal_updates]: each row is read
    against the table left by the rows before it. *)
Lemma update_loop_normal df : ∀ elo k hfa acc,
  Forall (rated elo) df →
  ∃ elo' entries,
    update_loop elo df k hfa acc = Ok (elo', acc ++ entries) ∧
    normal_updates elo df k hfa entries elo'.
Proof.
  induction df as [|row df IH]; intros elo k hfa acc Hr.
  - exists elo, []. simpl. by rewrite app_nil_r.
  - apply Forall_cons in Hr as [[[rh Hh] [ra Ha]] Hr].
    destruct (process_row_rated elo row k hfa rh ra Hh Ha)
      as (e & He & Hent & Hbh & Hba).
    simpl. rewrite He.
    set (elo1 := <[away_team row := _]> _) in *.
    assert (Hkeep : ∀ t, is_Some (elo1 !! t) ↔ is_Some (elo !! t))
      by (intros t; eapply process_row_keeps_teams; exact He).
    destruct (IH elo1 k hfa (acc ++ [e])) as (elo' & entries & Hrun & Hnorm).
    { eapply Forall_impl; [exact Hr|]. intros r [H1 H2].
      split; apply Hkeep; assumption. }
    exists elo', (e :: entries). split.
    + rewrite Hrun. by rewrite <-app_assoc.
    + simpl. rewrite Hbh, Hba. done.
Qed.

Lemma normal_updates_entries df : ∀ elo k hfa game_log elo',
  normal_updates elo df k hfa game_log elo' →
  Forall2 (λ row e, entry_for row k hfa e) df game_log.
Proof.
  induction df as [|row df IH]; intros elo k hfa game_log elo' Hnorm;
    destruct game_log as [|e game_log]; simpl in Hnorm; try done.
  destruct Hnorm as (_ & _ & He & Hrest). constructor; [done|]. by eapply IH.
Qed.

Lemma update_elo_ratings_normal elo df k hfa :
  Forall (rated elo) df →
  ∃ elo' game_log,
    update_elo_ratings elo df k hfa = Ok (elo', game_log) ∧
    normal_updates elo df k hfa game_log elo'.
Proof.
  intros Hr. unfold update_elo_ratings.
  destruct (update_loop_normal df elo k hfa [] Hr) as (elo' & entries & H & ?).
  exists elo', entries. by rewrite H.
Qed.

Lemma sample_rows_rated : Forall (rated two_teams) sample_rows.
Proof.
  unfold sample_rows, two_teams.
  repeat constructor; simpl; eexists; reflexivity.
Defined.

Lemma sample_rows_distinct :
  Forall (λ row, home_team row ≠ away_team row) sample_rows.
Proof. unfold sample_rows. repeat constructor; simpl; discriminate. Defined.




(** C7. Whenever the loop runs (all teams of the schedule have ratings),
    the indicator recorded for a row is 1 exactly when the home score is
    strictly greater than the away score, and 0 otherwise; for a row with
    equal scores it is 0, and the update made is the one for that value:
    delta = K * (0 - p), added to the home rating and taken from the away
    rating. The ratings recorded as before the game are those the table
    holds when the row is reached, p is computed from them, and the
    ratings after the game are stored in the table before the next row
    is read. *)
Theorem tie_counts_as_away_win elo df k hfa :
  Forall (rated elo) df →
  ∃ elo' game_log,
    update_elo_ratings elo df k hfa = Ok (elo', game_log) ∧
    normal_updates elo df k hfa game_log elo' ∧
    Forall2 (λ row e,
      (actual_home_win e = 1%Z ∨ actual_home_win e = 0%Z) ∧
      (∀ h a, home_score row = Pts h → away_score row = Pts a →
         (actual_home_win e = 1%Z ↔ (h > a)%Z)) ∧
      (home_score row = away_score row →
         actual_home_win e = 0%Z ∧
         delta e = k * (0 - p_home_win e) ∧
         elo_home_after e = elo_home_before e + k * (0 - p_home_win e) ∧
         elo_away_after e = elo_away_before e - k * (0 - p_home_win e)))
      df game_log.
Proof.
  intros Hr.
  destruct (update_elo_ratings_normal elo df k hfa Hr)
    as (elo' & game_log & Hrun & Hnorm).
  pose proof (normal_updates_entries _ _ _ _ _ _ Hnorm) as Hall.
  exists elo', game_log. split; [done|]. split; [done|].
  eapply Forall2_impl; [exact Hall|].
  intros row e (_ & _ & _ & _ & _ & _ & Hact & Hd & Hh & Ha).
  split; [|split].
  - rewrite Hact. destruct (score_gt _ _); auto.
  - intros h a Hhs Has. rewrite Hact, Hhs, Has. simpl.
    destruct (Z.ltb_spec a h); split; intros; try lia; try discriminate.
  - intros Heq.
    assert (Hz : actual_home_win e = 0%Z).
    { rewrite Hact, Heq. destruct (away_score row) as [n|]; simpl; [|done].
      by rewrite Z.ltb_irrefl. }
    rewrite Hh, Ha, Hd, Hz. auto.
Qed.

Lemma tie_counts_as_away_win_witness :
  ∃ elo' game_log,
    update_elo_ratings two_teams sample_rows 30 55 = Ok (elo', game_log) ∧
    normal_updates two_teams sample_rows 30 55 game_log elo' ∧
    Forall2 (λ row e,
      (actual_home_win e = 1%Z ∨ actual_home_win e = 0%Z) ∧
      (∀ h a, home_score row = Pts h → away_score row = Pts a →
         (actual_home_win e = 1%Z ↔ (h > a)%Z)) ∧
      (home_score row = away_score row →
         actual_home_win e = 0%Z ∧
         delta e = 30 * (0 - p_home_win e) ∧
         elo_home_after e = elo_home_before e + 30 * (0 - p_home_win e) ∧
         elo_away_after e = elo_away_before e - 30 * (0 - p_home_win e)))
      sample_rows game_log.
Proof.
  apply (tie_counts_as_away_win two_teams sample_rows 30 55).
  exact sample_rows_rated.
Defined.

(** C10. The loop checks nothing about its rows: for any schedule, in any
    order of dates and with any scores, whose teams have ratings, it runs
    to its end and returns a log with exactly one record per row, in the
    order of the rows, each the record of a normal update made on the
    table as the rows before it left it, and the table it returns is the
    one left by the last of these updates; a row whose home or away score
    is missing is recorded with indicator 0. *)
Theorem no_precondition_checks elo df k hfa :
  Forall (rated elo) df →
  ∃ elo' game_log,
    update_elo_ratings elo df k hfa = Ok (elo', game_log) ∧
    length game_log = length df ∧
    normal_updates elo df k hfa game_log elo' ∧
    Forall2 (λ row e,
      entry_for row k hfa e ∧
      (home_score row = NaN ∨ away_score row = NaN → actual_home_win e = 0%Z))
      df game_log.
Proof.
  intros Hr.
  destruct (update_elo_ratings_normal elo df k hfa Hr)
    as (elo' & game_log & Hrun & Hnorm).
  pose proof (normal_updates_entries _ _ _ _ _ _ Hnorm) as Hall.
  exists elo', game_log. split; [done|]. split; [|split; [done|]].
  - symmetry. eapply Forall2_length, Hall.
  - eapply Forall2_impl; [exact Hall|].
    intros row e He. split; [done|].
    destruct He as (_ & _ & _ & _ & _ & _ & Hact & _).
    rewrite Hact. intros [->| ->]; [done|].
    by destruct (home_score row).
Qed.

Lemma no_precondition_checks_witness :
  ∃ elo' game_log,
    update_elo_ratings two_teams sample_rows 30 55 = Ok (elo', game_log) ∧
    length game_log = length sample_rows ∧
    normal_updates two_teams sample_rows 30 55 game_log elo' ∧
    Forall2 (λ row e,
      entry_for row 30 55 e ∧
      (home_score row = NaN ∨ away_score row = NaN → actual_home_win e = 0%Z))
      sample_rows game_log.
Proof.
  apply (no_precondition_checks two_teams sample_rows 30 55).
  exact sample_rows_rated.
Defined.

End EloFacts.

(* ===================================================================== *)
(* Facts about the playoff simulation                                     *)
(* ===================================================================== *)
Module PlayoffFacts.
Import Playoffs.

(* --------------------------------------------------------------------- *)
(* The win probability                                                    *)
(* --------------------------------------------------------------------- *)

Lemma game_probability_bounds a b hfa n :
  0 < compute_win_probability a b hfa n < 1.
Proof.
  unfold compute_win_probability.
  set (x := Rpower 10 _).
  assert (0 < x) by apply EloFacts.pow10_pos.
  split.
  - apply Rdiv_lt_0_compat; lra.
  - apply Rmult_lt_reg_r with (1 + x); [lra|].
    unfold Rdiv. rewrite Rmult_assoc, Rinv_l by lra. lra.
Qed.

(** C6 (as amended). In exact arithmetic, on real numbers, the
    probabilities of the two teams at a neutral site add up to one,
    whatever the ratings and the home advantage passed. *)
Theorem neutral_site_complement a b hfa :
  compute_win_probability a b hfa true + compute_win_probability b a hfa true = 1.
Proof.
  unfold compute_win_probability.
  replace (- (b - a) / 400) with (- (- (a - b) / 400)) by field.
  rewrite Rpower_Ropp.
  pose proof (EloFacts.pow10_pos (- (a - b) / 400)) as Hx.
  set (x := Rpower 10 _) in *.
  field. split; lra.
Qed.

(* --------------------------------------------------------------------- *)
(* Running computations                                                   *)
(* --------------------------------------------------------------------- *)

Lemma bind_ok {A B} (m : M A) (f : A → M B) w a w' :
  m w = (Ok a, w') → bind m f w = f a w'.
Proof. intros H. unfold bind. by rewrite H. Qed.

Lemma bind_raise {A B} (m : M A) (f : A → M B) w e w' :
  m w = (Raise e, w') → bind m f w = (Raise e, w').
Proof. intros H. unfold bind. by rewrite H. Qed.

Lemma bind_lift_ok {A B} (r : result A) (f : A → M B) w a :
  r = Ok a → bind (lift r) f w = f a w.
Proof. intros ->. reflexivity. Qed.

Lemma bind_lift_raise {A B} (r : result A) (f : A → M B) w e :
  r = Raise e → bind (lift r) f w = (Raise e, w).
Proof. intros ->. reflexivity. Qed.

(** A game between two rated teams: one draw, one game, the winner is the
    host exactly when the variate is below the probability. *)
Lemma simulate_game_rated h a elo hfa n w eh ea :
  elo !! h = Some eh → elo !! a = Some ea →
  simulate_game h a elo hfa n w =
    (Ok (g_winner (play h a eh ea hfa n w), g_p_home_win (play h a eh ea hfa n w)),
     after w (play h a eh ea hfa n w)).
Proof.
  intros Hh Ha. unfold simulate_game, rating_of. rewrite Hh, Ha. reflexivity.
Qed.

Lemma simulate_game_no_home h a elo hfa n w :
  elo !! h = None → simulate_game h a elo hfa n w = (Raise (KeyError_team h), w).
Proof. intros Hh. unfold simulate_game, rating_of. by rewrite Hh. Qed.

Lemma simulate_game_no_away h a elo hfa n w eh :
  elo !! h = Some eh → elo !! a = None →
  simulate_game h a elo hfa n w = (Raise (KeyError_team a), w).
Proof. intros Hh Ha. unfold simulate_game, rating_of. by rewrite Hh, Ha. Qed.

Lemma play_winner h a eh ea hfa n w :
  g_winner (play h a eh ea hfa n w) = h ∨ g_winner (play h a eh ea hfa n w) = a.
Proof. unfold play; simpl. destruct (Rlt_dec _ _); auto. Qed.

(** The three ways a call of [simulate_game] can go. *)
Lemma simulate_game_cases h a elo hfa n w :
  (∃ t, (t = h ∨ t = a) ∧ elo !! t = None ∧
        simulate_game h a elo hfa n w = (Raise (KeyError_team t), w)) ∨
  (∃ g, is_Some (elo !! h) ∧ is_Some (elo !! a) ∧
        simulate_game h a elo hfa n w = (Ok (g_winner g, g_p_home_win g), after w g) ∧
        g_home g = h ∧ g_away g = a ∧ g_neutral g = n ∧
        (g_winner g = h ∨ g_winner g = a)).
Proof.
  destruct (elo !! h) as [eh|] eqn:Hh.
  - destruct (elo !! a) as [ea|] eqn:Ha.
    + right. exists (play h a eh ea hfa n w).
      rewrite (simulate_game_rated _ _ _ _ _ _ eh ea Hh Ha).
      repeat split; eauto using play_winner.
    + left. exists a. rewrite (simulate_game_no_away _ _ _ _ _ _ eh Hh Ha). auto.
  - left. exists h. rewrite (simulate_game_no_home _ _ _ _ _ _ Hh). auto.
Qed.

Lemma bind_assoc {A B C} (m : M A) (f : A → M B) (g : B → M C) w :
  bind (bind m f) g w = bind m (λ a, bind (f a) g) w.
Proof. unfold bind. destruct (m w) as [[a|e] w']; done. Qed.

Lemma bind_ext {A B} (m : M A) (f g : A → M B) w :
  (∀ a w', f a w' = g a w') → bind m f w = bind m g w.
Proof. intros H. unfold bind. destruct (m w) as [[a|e] w']; auto. Qed.

Lemma bind_run {A B} (m m' : M A) (f : A → M B) w :
  m w = m' w → bind m f w = bind m' f w.
Proof. intros H. unfold bind. by rewrite H. Qed.

Lemma bind_ret_l {A B} (a : A) (f : A → M B) w : bind (ret a) f w = f a w.
Proof. reflexivity. Qed.

Lemma advanced_refl w : advanced w [] w.
Proof. unfold advanced. rewrite app_nil_r. simpl. repeat split; lia. Qed.

Lemma advanced_after w g : advanced w [g] (after w g).
Proof. unfold advanced, after; simpl. repeat split; lia. Qed.

Lemma advanced_trans w gs w' gs' w'' :
  advanced w gs w' → advanced w' gs' w'' → advanced w (gs ++ gs') w''.
Proof.
  intros (H1 & H2 & H3) (H4 & H5 & H6). unfold advanced.
  rewrite H4, H1, H5, H2, H6, H3, length_app, app_assoc. repeat split; lia.
Qed.

Lemma games_fair n elo games gs :
  Forall2 (game_of n elo) games gs → Forall (fair elo) gs.
Proof.
  induction 1 as [|[h a] g games gs Hg _ IH]; constructor; [|done].
  destruct Hg as (Hh & Ha & _ & _ & Rh & Ra). simpl in *.
  unfold fair. by rewrite Hh, Ha.
Qed.

(** The listed games in sequence: either all of them are resolved, or the
    run stops at the first lookup of an unrated team, the games before it
    resolved and the world advanced by those only. *)
Lemma play_all_cases n games elo hfa : ∀ w,
  (∃ gs w',
      play_all n games elo hfa w = (Ok (g_winner <$> gs), w') ∧
      advanced w gs w' ∧
      Forall2 (game_of n elo) games gs) ∨
  (∃ t gs w' h a,
      play_all n games elo hfa w = (Raise (KeyError_team t), w') ∧
      advanced w gs w' ∧
      Forall2 (game_of n elo) (take (length gs) games) gs ∧
      games !! length gs = Some (h, a) ∧ (t = h ∨ t = a) ∧ elo !! t = None).
Proof.
  induction games as [|[h a] rest IH]; intros w.
  - left. exists [], w. simpl.
    split; [reflexivity|]. split; [apply advanced_refl|constructor].
  - simpl.
    destruct (simulate_game_cases h a elo hfa n w)
      as [(t & Ht & Hno & Hrun)|(g & Hh & Ha & Hrun & Hg1 & Hg2 & Hg3 & Hg4)].
    + right. exists t, [], w, h, a. rewrite (bind_raise _ _ _ _ _ Hrun).
      split; [reflexivity|]. split; [apply advanced_refl|].
      split; [constructor|]. auto.
    + rewrite (bind_ok _ _ _ _ _ Hrun).
      assert (Hg : game_of n elo (h, a) g) by (unfold game_of; simpl; auto 10).
      destruct (IH (after w g))
        as [(gs & w' & Hrest & Hadv & Hall)
           |(t & gs & w' & h' & a' & Hrest & Hadv & Hall & Hat & Ht & Hno)].
      * left. exists (g :: gs), w'. rewrite (bind_ok _ _ _ _ _ Hrest).
        split; [reflexivity|]. split.
        -- apply (advanced_trans w [g] (after w g) gs w'); auto using advanced_after.
        -- by constructor.
      * right. exists t, (g :: gs), w', h', a'. rewrite (bind_raise _ _ _ _ _ Hrest).
        split; [reflexivity|]. split; [|split].
        -- apply (advanced_trans w [g] (after w g) gs w'); auto using advanced_after.
        -- simpl. by constructor.
        -- simpl. auto.
Qed.

(* --------------------------------------------------------------------- *)
(* Seedings                                                               *)
(* --------------------------------------------------------------------- *)

Lemma seed_team_elem seeds s t : seed_team seeds s = Ok t → (s, t) ∈ seeds.
Proof.
  induction seeds as [|[s' t'] rest IH]; simpl; [discriminate|].
  case_decide as Hs.
  - intros [= ->]. subst. apply list_elem_of_here.
  - intros H. apply list_elem_of_further, IH, H.
Qed.

Lemma team_to_seed_fold_notin seeds : ∀ (m : gmap string nat) t,
  t ∉ seeds.*2 →
  foldl (λ m st, <[st.2 := st.1]> m) m seeds !! t = m !! t.
Proof.
  induction seeds as [|[s' t'] rest IH]; intros m t Hnot; simpl; [done|].
  rewrite fmap_cons, not_elem_of_cons in Hnot. destruct Hnot as [Hne Hnot].
  rewrite IH by done. simpl in *. by rewrite lookup_insert_ne.
Qed.

Lemma team_to_seed_fold_in seeds : ∀ (m : gmap string nat) s t,
  NoDup seeds.*2 → (s, t) ∈ seeds →
  foldl (λ m st, <[st.2 := st.1]> m) m seeds !! t = Some s.
Proof.
  induction seeds as [|[s' t'] rest IH]; intros m s t Hnd Hin; simpl.
  - by apply elem_of_nil in Hin.
  - rewrite fmap_cons in Hnd. apply NoDup_cons in Hnd as [Hfresh Hnd].
    apply elem_of_cons in Hin as [[= -> ->]|Hin].
    + rewrite team_to_seed_fold_notin by done. simpl. apply lookup_insert_eq.
    + by apply IH.
Qed.

(** With distinct teams, [team_to_seed] inverts [seeds]. *)
Lemma team_to_seed_of seeds s t :
  NoDup seeds.*2 → seed_team seeds s = Ok t → team_to_seed seeds !! t = Some s.
Proof.
  intros Hnd Hs. unfold team_to_seed.
  apply team_to_seed_fold_in; [done|]. by apply seed_team_elem.
Qed.

Lemma seeds_of_teams_Forall2 t2s teams ss :
  Forall2 (λ t s, t2s !! t = Some s) teams ss →
  seeds_of_teams t2s teams = Ok ss.
Proof.
  induction 1 as [|t s teams ss Ht _ IH]; simpl; [done|].
  by rewrite Ht, IH.
Qed.

(* --------------------------------------------------------------------- *)
(* The rounds, once the pairings are known                                *)
(* --------------------------------------------------------------------- *)

Lemma wild_card_loop_run ms games seeds elo hfa : ∀ acc w,
  Forall2 (λ (m : nat * nat) (ha : string * string),
             seed_team seeds m.1 = Ok ha.1 ∧ seed_team seeds m.2 = Ok ha.2)
          ms games →
  wild_card_loop ms seeds elo hfa acc w =
    bind (play_all false games elo hfa) (λ xs, ret (acc ++ xs)) w.
Proof.
  intros acc w Hall. revert acc w.
  induction Hall as [|[sh sa] [h a] ms games [Hh Ha] _ IH]; intros acc w; simpl in *.
  - unfold bind, ret; simpl. by rewrite app_nil_r.
  - rewrite (bind_lift_ok _ _ _ _ Hh), (bind_lift_ok _ _ _ _ Ha).
    rewrite bind_assoc. apply bind_ext. intros [x p] w1.
    rewrite IH, bind_assoc. apply bind_ext. intros xs w2.
    unfold bind, ret. by rewrite <-app_assoc.
Qed.

(** The wild-card round: seed 1 advances, 2 hosts 7, 3 hosts 6, 4 hosts 5. *)
Lemma simulate_wild_card_run seeds elo hfa w t1 t2 t3 t4 t5 t6 t7 :
  seed_team seeds 1 = Ok t1 → seed_team seeds 2 = Ok t2 →
  seed_team seeds 3 = Ok t3 → seed_team seeds 4 = Ok t4 →
  seed_team seeds 5 = Ok t5 → seed_team seeds 6 = Ok t6 →
  seed_team seeds 7 = Ok t7 →
  simulate_wild_card seeds elo hfa w =
    bind (play_all false [(t2, t7); (t3, t6); (t4, t5)] elo hfa)
         (λ xs, ret (t1 :: xs)) w.
Proof.
  intros H1 H2 H3 H4 H5 H6 H7. unfold simulate_wild_card.
  rewrite (bind_lift_ok _ _ _ _ H1).
  apply wild_card_loop_run. repeat constructor; done.
Qed.

(** The divisional round, given what its lookups return. *)
Lemma simulate_divisional_run winners seeds elo hfa w ss t1 lo tlo hi lw thi tlw :
  seeds_of_teams (team_to_seed seeds) winners = Ok ss →
  seed_team seeds 1 = Ok t1 →
  py_max (sorted ss) = Ok lo →
  seed_team seeds lo = Ok tlo →
  py_min (filter (λ s, s ≠ 1%nat ∧ s ≠ lo) (sorted ss)) = Ok hi →
  py_max (filter (λ s, s ≠ 1%nat ∧ s ≠ lo) (sorted ss)) = Ok lw →
  seed_team seeds hi = Ok thi →
  seed_team seeds lw = Ok tlw →
  simulate_divisional winners seeds elo hfa w =
    play_all false [(t1, tlo); (thi, tlw)] elo hfa w.
Proof.
  intros Hss H1 Hlo Htlo Hhi Hlw Hthi Htlw. unfold simulate_divisional.
  rewrite (bind_lift_ok _ _ _ _ Hss). cbv zeta.
  rewrite (bind_lift_ok _ _ _ _ H1).
  rewrite (bind_lift_ok _ _ _ _ Hlo).
  rewrite (bind_lift_ok _ _ _ _ Htlo).
  rewrite (bind_lift_ok _ _ _ _ Hhi).
  rewrite (bind_lift_ok _ _ _ _ Hlw).
  simpl. apply bind_ext. intros [x p] w1.
  rewrite (bind_lift_ok _ _ _ _ Hthi), (bind_lift_ok _ _ _ _ Htlw).
  rewrite bind_assoc. apply bind_ext. intros [y q] w2. reflexivity.
Qed.

(** The conference championship, given what its lookups return. *)
Lemma simulate_conference_championship_run winners seeds elo hfa w ss hi lw thi tlw :
  seeds_of_teams (team_to_seed seeds) winners = Ok ss →
  py_min (sorted ss) = Ok hi →
  py_max (sorted ss) = Ok lw →
  seed_team seeds hi = Ok thi →
  seed_team seeds lw = Ok tlw →
  simulate_conference_championship winners seeds elo hfa w =
    bind (simulate_game thi tlw elo hfa false) (λ xp, ret xp.1) w.
Proof.
  intros Hss Hhi Hlw Hthi Htlw. unfold simulate_conference_championship.
  rewrite (bind_lift_ok _ _ _ _ Hss). cbv zeta.
  rewrite (bind_lift_ok _ _ _ _ Hhi), (bind_lift_ok _ _ _ _ Hlw).
  rewrite (bind_lift_ok _ _ _ _ Hthi), (bind_lift_ok _ _ _ _ Htlw).
  apply bind_ext. intros [x p] w1. reflexivity.
Qed.

(* --------------------------------------------------------------------- *)
(* One conference                                                         *)
(* --------------------------------------------------------------------- *)

Ltac seeds_known :=
  apply seeds_of_teams_Forall2;
  repeat (eapply List.Forall2_cons; [eapply team_to_seed_of; eassumption|]);
  apply List.Forall2_nil.

Ltac pairing := first [eassumption | compute; reflexivity].

Ltac absurd_rated :=
  match goal with
  | Hno : ?elo !! ?t = None, R : is_Some (?elo !! ?t) |- _ =>
    rewrite Hno in R; by apply is_Some_None in R
  end.

Section Conference.
Variables (seeds : list (nat * string)) (t1 t2 t3 t4 t5 t6 t7 : string).
Hypothesis Hnd : NoDup seeds.*2.
Hypothesis H1 : seed_team seeds 1 = Ok t1.
Hypothesis H2 : seed_team seeds 2 = Ok t2.
Hypothesis H3 : seed_team seeds 3 = Ok t3.
Hypothesis H4 : seed_team seeds 4 = Ok t4.
Hypothesis H5 : seed_team seeds 5 = Ok t5.
Hypothesis H6 : seed_team seeds 6 = Ok t6.
Hypothesis H7 : seed_team seeds 7 = Ok t7.

(** The three rounds of a conference either run to the end, six games
    between rated teams, or stop at the first lookup of an unrated team:
    in the wild-card round for seeds 2 to 7, at the first divisional game
    for seed 1. *)
Lemma conference_cases elo hfa w :
  (∃ wc dv ch gs w',
      conference seeds elo hfa w = (Ok (wc, dv, ch), w') ∧
      advanced w gs w' ∧ length gs = 6%nat ∧ Forall (fair elo) gs ∧
      Forall (λ t, is_Some (elo !! t)) [t1; t2; t3; t4; t5; t6; t7] ∧
      wc ⊆+ [t1; t2; t3; t4; t5; t6; t7] ∧ length wc = 4%nat ∧
      dv ⊆+ wc ∧ [ch] ⊆+ dv) ∨
  (∃ t gs w',
      conference seeds elo hfa w = (Raise (KeyError_team t), w') ∧
      advanced w gs w' ∧ Forall (fair elo) gs ∧ elo !! t = None ∧
      ((t ∈ [t2; t3; t4; t5; t6; t7] ∧ (length gs < 3)%nat) ∨
       (t = t1 ∧ length gs = 3%nat))).
Proof.
  unfold conference.
  rewrite (bind_run _ _ _ _
    (simulate_wild_card_run seeds elo hfa w t1 t2 t3 t4 t5 t6 t7 H1 H2 H3 H4 H5 H6 H7)).
  rewrite bind_assoc.
  destruct (play_all_cases false [(t2, t7); (t3, t6); (t4, t5)] elo hfa w)
    as [(gs & w1 & Hrun & Hadv & Hgs)
       |(t & gs & w1 & h & a & Hrun & Hadv & Hgs & Hat & Ht & Hno)].
  2:{ right. exists t, gs, w1. rewrite (bind_raise _ _ _ _ _ Hrun).
      split; [done|]. split; [done|]. split; [by eapply games_fair|].
      split; [done|]. left.
      pose proof (lookup_lt_Some _ _ _ Hat) as Hlen. simpl in Hlen.
      split; [|done].
      destruct (length gs) as [|[|[|?]]]; simpl in Hat; try lia;
        injection Hat as <- <-; destruct Ht as [-> | ->];
        rewrite !elem_of_cons; tauto. }
  rewrite (bind_ok _ _ _ _ _ Hrun), bind_ret_l. clear Hrun.
  pose proof (games_fair _ _ _ _ Hgs) as Hfair1.
  apply Forall2_cons_inv_l in Hgs as (g1 & gs1 & Hg1 & Hgs & ->).
  apply Forall2_cons_inv_l in Hgs as (g2 & gs2 & Hg2 & Hgs & ->).
  apply Forall2_cons_inv_l in Hgs as (g3 & gs3 & Hg3 & Hgs & ->).
  apply Forall2_nil_inv_l in Hgs as ->.
  destruct Hg1 as (_ & _ & _ & Hx & R2 & R7), Hg2 as (_ & _ & _ & Hy & R3 & R6),
           Hg3 as (_ & _ & _ & Hz & R4 & R5).
  simpl in *.
  destruct Hx as [-> | ->], Hy as [-> | ->], Hz as [-> | ->].
  all: erewrite bind_run;
         [|eapply simulate_divisional_run;
           [seeds_known|pairing|pairing|pairing|pairing|pairing|pairing|pairing]].
  all: match goal with |- context [bind (play_all false ?games _ _) _ ?w0] =>
         destruct (play_all_cases false games elo hfa w0)
           as [(gs' & w2 & Hrun2 & Hadv2 & Hgs2)
              |(t & gs' & w2 & h & a & Hrun2 & Hadv2 & Hgs2 & Hat & Ht & Hno)]
       end.
  all: try (right; exists t, [g1; g2; g3], w2;
            rewrite (bind_raise _ _ _ _ _ Hrun2);
            destruct gs' as [|g4 [|g5 gs']]; simpl in Hat; [| |done];
            injection Hat as <- <-; destruct Ht as [-> | ->]; try absurd_rated;
            pose proof (advanced_trans _ _ _ _ _ Hadv Hadv2) as Hadv3;
            rewrite app_nil_r in Hadv3;
            (split; [done|]); (split; [done|]);
            (split; [done|]); (split; [done|]); right; done).
  all: rewrite (bind_ok _ _ _ _ _ Hrun2); clear Hrun2.
  all: pose proof (games_fair _ _ _ _ Hgs2) as Hfair2.
  all: apply Forall2_cons_inv_l in Hgs2 as (g4 & gs4 & Hg4 & Hgs2 & ->).
  all: apply Forall2_cons_inv_l in Hgs2 as (g5 & gs5 & Hg5 & Hgs2 & ->).
  all: apply Forall2_nil_inv_l in Hgs2 as ->.
  all: destruct Hg4 as (_ & _ & _ & Hp & R1 & _), Hg5 as (_ & _ & _ & Hq & _ & _).
  all: simpl in *.
  all: destruct Hp as [-> | ->], Hq as [-> | ->].
  all: erewrite bind_run;
         [|eapply simulate_conference_championship_run;
           [seeds_known|pairing|pairing|pairing|pairing]].
  all: rewrite bind_assoc.
  all: match goal with |- context [bind (simulate_game ?h ?a _ _ false) _ ?w0] =>
         destruct (simulate_game_cases h a elo hfa false w0)
           as [(t & Ht3 & Hno3 & Hrun3)|(g6 & Rh & Ra & Hrun3 & Hh6 & Ha6 & _ & Hc)]
       end.
  all: try (destruct Ht3 as [-> | ->]; absurd_rated).
  all: left; rewrite (bind_ok _ _ _ _ _ Hrun3); simpl.
  all: eexists _, _, _, ([g1; g2; g3] ++ [g4; g5] ++ [g6]), (after w2 g6).
  all: split; [reflexivity|].
  all: split; [eapply advanced_trans; [eassumption|];
               eapply advanced_trans; [eassumption|apply advanced_after]|].
  all: split; [reflexivity|].
  all: split; [apply Forall_app; split; [done|]; apply Forall_app; split; [done|];
               constructor; [|constructor]; unfold fair; by rewrite Hh6, Ha6|].
  all: split; [repeat constructor; assumption|].
  all: split; [solve_submseteq|].
  all: split; [reflexivity|].
  all: split; [solve_submseteq|].
  all: destruct Hc as [-> | ->]; solve_submseteq.
Qed.
End Conference.

(* --------------------------------------------------------------------- *)
(* One bracket                                                            *)
(* --------------------------------------------------------------------- *)

Lemma afc_teams_distinct : NoDup PLAYOFF_SEEDS_AFC.*2.
Proof. apply (bool_decide_unpack _). vm_compute. exact I. Qed.

Lemma nfc_teams_distinct : NoDup PLAYOFF_SEEDS_NFC.*2.
Proof. apply (bool_decide_unpack _). vm_compute. exact I. Qed.

Lemma seeded_teams_distinct : NoDup seeded_teams.
Proof. apply (bool_decide_unpack _). vm_compute. exact I. Qed.

Lemma seeded_teams_named t : t ∈ seeded_teams → t ≠ ""%string.
Proof.
  intros Hin ->. revert Hin. apply (bool_decide_unpack _). vm_compute. exact I.
Qed.

Lemma simulate_one_bracket_conferences elo hfa w :
  simulate_one_bracket elo hfa w =
    bind (conference PLAYOFF_SEEDS_AFC elo hfa) (λ afc,
      bind (conference PLAYOFF_SEEDS_NFC elo hfa) (λ nfc,
        bind (simulate_super_bowl afc.2 nfc.2 elo hfa) (λ champ,
          ret {| divisional := afc.1.1 ++ nfc.1.1;
                 conf_champ := afc.1.2 ++ nfc.1.2;
                 super_bowl := [afc.2; nfc.2];
                 champion := Some champ |}))) w.
Proof.
  unfold simulate_one_bracket, conference. cbv zeta.
  rewrite !bind_assoc. apply bind_ext. intros awc w1.
  rewrite !bind_assoc. apply bind_ext. intros adv w2.
  rewrite !bind_assoc. apply bind_ext. intros ach w3.
  rewrite bind_ret_l. simpl.
  rewrite !bind_assoc. apply bind_ext. intros nwc w4.
  rewrite !bind_assoc. apply bind_ext. intros ndv w5.
  rewrite !bind_assoc. apply bind_ext. intros nch w6.
  rewrite bind_ret_l. reflexivity.
Qed.

(** One bracket either runs to the end, thirteen games between rated
    teams, every seeded team rated, or stops at the first lookup of a
    seeded team without rating, after fewer than thirteen games. *)
Lemma bracket_cases elo hfa w :
  (∃ b gs w',
      simulate_one_bracket elo hfa w = (Ok b, w') ∧
      advanced w gs w' ∧ length gs = 13%nat ∧ Forall (fair elo) gs ∧
      all_rated elo ∧ good_bracket b) ∨
  (∃ t gs w',
      simulate_one_bracket elo hfa w = (Raise (KeyError_team t), w') ∧
      advanced w gs w' ∧ (length gs < 13)%nat ∧ Forall (fair elo) gs ∧
      t ∈ seeded_teams ∧ elo !! t = None).
Proof.
  rewrite simulate_one_bracket_conferences.
  destruct (conference_cases PLAYOFF_SEEDS_AFC "DEN" "NE" "JAX" "PIT" "HOU" "BUF" "LAC"
              afc_teams_distinct eq_refl eq_refl eq_refl eq_refl eq_refl eq_refl eq_refl
              elo hfa w)
    as [(awc & adv & ach & gs1 & w1 & Hrun1 & Hadv1 & Hlen1 & Hfair1 & Hra & Hawc & Hawcl & Hadv & Hach)
       |(t & gs1 & w1 & Hrun1 & Hadv1 & Hfair1 & Hno & Ht)].
  2:{ right. exists t, gs1, w1. rewrite (bind_raise _ _ _ _ _ Hrun1).
      split; [done|]. split; [done|].
      split; [destruct Ht as [[_ ?]|[_ ?]]; lia|]. split; [done|]. split; [|done].
      unfold seeded_teams. apply elem_of_app. left.
      destruct Ht as [[Ht _]|[-> _]]; [|apply list_elem_of_here].
      by apply list_elem_of_further. }
  rewrite (bind_ok _ _ _ _ _ Hrun1). simpl.
  destruct (conference_cases PLAYOFF_SEEDS_NFC "SEA" "CHI" "PHI" "CAR" "LA" "SF" "GB"
              nfc_teams_distinct eq_refl eq_refl eq_refl eq_refl eq_refl eq_refl eq_refl
              elo hfa w1)
    as [(nwc & ndv & nch & gs2 & w2 & Hrun2 & Hadv2 & Hlen2 & Hfair2 & Hrn & Hnwc & Hnwcl & Hndv & Hnch)
       |(t & gs2 & w2 & Hrun2 & Hadv2 & Hfair2 & Hno & Ht)].
  2:{ right. exists t, (gs1 ++ gs2), w2. rewrite (bind_raise _ _ _ _ _ Hrun2).
      split; [done|]. split; [by eapply advanced_trans|].
      split; [rewrite length_app; destruct Ht as [[_ ?]|[_ ?]]; lia|].
      split; [by apply Forall_app|]. split; [|done].
      unfold seeded_teams. apply elem_of_app. right.
      destruct Ht as [[Ht _]|[-> _]]; [|apply list_elem_of_here].
      by apply list_elem_of_further. }
  rewrite (bind_ok _ _ _ _ _ Hrun2). simpl.
  assert (Hall : all_rated elo).
  { unfold all_rated, seeded_teams. apply Forall_app. split; assumption. }
  assert (Rach : is_Some (elo !! ach)).
  { apply (proj1 (Forall_forall _ _) Hra).
    eapply elem_of_submseteq; [|exact Hawc].
    eapply elem_of_submseteq; [|exact Hadv].
    eapply elem_of_submseteq; [|exact Hach]. apply list_elem_of_here. }
  assert (Rnch : is_Some (elo !! nch)).
  { apply (proj1 (Forall_forall _ _) Hrn).
    eapply elem_of_submseteq; [|exact Hnwc].
    eapply elem_of_submseteq; [|exact Hndv].
    eapply elem_of_submseteq; [|exact Hnch]. apply list_elem_of_here. }
  unfold simulate_super_bowl. rewrite bind_assoc.
  destruct (simulate_game_cases ach nch elo hfa true w2)
    as [(t & Ht & Hno & _)|(g & _ & _ & Hrun3 & Hh & Ha & _ & Hc)].
  { destruct Ht as [-> | ->]; absurd_rated. }
  rewrite (bind_ok _ _ _ _ _ Hrun3). simpl.
  left. eexists _, (gs1 ++ gs2 ++ [g]), (after w2 g).
  split; [reflexivity|]. split; [|split; [|split; [|split]]].
  - eapply advanced_trans; [eassumption|].
    eapply advanced_trans; [eassumption|apply advanced_after].
  - rewrite !length_app. simpl. lia.
  - apply Forall_app; split; [done|]. apply Forall_app; split; [done|].
    constructor; [|constructor]. unfold fair. by rewrite Hh, Ha.
  - done.
  - unfold good_bracket; simpl. split; [|split; [|split; [|split]]].
    + unfold seeded_teams. by apply submseteq_app.
    + rewrite length_app. lia.
    + by apply submseteq_app.
    + by apply (submseteq_app [ach] adv [nch] ndv).
    + exists (g_winner g). split; [done|].
      destruct Hc as [-> | ->]; solve_submseteq.
Qed.

(* --------------------------------------------------------------------- *)
(* Counting                                                               *)
(* --------------------------------------------------------------------- *)

Lemma occ_nil t : occ t [] = 0%nat.
Proof. reflexivity. Qed.

Lemma occ_cons t x l :
  occ t (x :: l) = ((if decide (t = x) then 1 else 0) + occ t l)%nat.
Proof. unfold occ. rewrite filter_cons. by case_decide. Qed.

Lemma occ_app t l k : occ t (l ++ k) = (occ t l + occ t k)%nat.
Proof. unfold occ. by rewrite filter_app, length_app. Qed.

Lemma occ_pos t l : (0 < occ t l)%nat ↔ t ∈ l.
Proof.
  induction l as [|x l IH]; [rewrite occ_nil, elem_of_nil; lia|].
  rewrite occ_cons, elem_of_cons. case_decide; [intuition lia|].
  rewrite <-IH. intuition lia.
Qed.

Lemma occ_submseteq t l k : l ⊆+ k → (occ t l ≤ occ t k)%nat.
Proof.
  induction 1; rewrite ?occ_cons; try case_decide; try case_decide; lia.
Qed.

Lemma tally_of_insert counts t c t' :
  tally_of (<[t:=c]> counts) t' = if decide (t = t') then c else tally_of counts t'.
Proof.
  unfold tally_of. case_decide as Ht.
  - subst. by rewrite lookup_insert_eq.
  - by rewrite lookup_insert_ne.
Qed.

Lemma tally_of_empty t : tally_of ∅ t = zero_tally.
Proof. unfold tally_of. by rewrite lookup_empty. Qed.

Lemma tally_of_lookup (counts : gmap string tally) t c :
  counts !! t = Some c → tally_of counts t = c.
Proof. unfold tally_of. by intros ->. Qed.

(** Storing a tally for a team moves the total of championships by the
    difference to what the team had. *)
Lemma total_champion_insert counts t c :
  (total_champion (<[t:=c]> counts) + n_champion (tally_of counts t)
   = total_champion counts + n_champion c)%nat.
Proof.
  unfold total_champion, tally_of.
  destruct (counts !! t) as [c0|] eqn:Hc; simpl.
  - rewrite <-insert_delete_eq.
    rewrite (map_to_list_insert (delete t counts)) by apply lookup_delete_eq.
    rewrite <-(map_to_list_delete counts t c0 Hc). simpl. lia.
  - rewrite (map_to_list_insert counts) by done. simpl. lia.
Qed.

Lemma total_champion_empty : total_champion ∅ = 0%nat.
Proof. unfold total_champion. by rewrite map_to_list_empty. Qed.

Section Bump.
Variable f : tally → tally.
Local Abbreviation bump :=
  (λ (counts : gmap string tally) (t : string), <[t := f (tally_of counts t)]> counts).

Lemma foldl_bump_tally l : ∀ counts t,
  tally_of (foldl bump counts l) t = Nat.iter (occ t l) f (tally_of counts t).
Proof.
  induction l as [|x l IH]; intros counts t; simpl; [done|].
  rewrite IH, occ_cons, tally_of_insert.
  case_decide as Hx; case_decide as Hx'; try congruence; subst; simpl.
  - by rewrite <-Nat.iter_succ_r.
  - done.
Qed.

Lemma foldl_bump_keys l : ∀ counts t,
  is_Some (foldl bump counts l !! t) ↔ is_Some (counts !! t) ∨ t ∈ l.
Proof.
  induction l as [|x l IH]; intros counts t; simpl.
  - rewrite elem_of_nil. tauto.
  - rewrite IH, lookup_insert_is_Some, elem_of_cons.
    destruct (decide (x = t)); subst; intuition congruence.
Qed.

Lemma foldl_bump_total l : ∀ counts,
  (∀ c, n_champion (f c) = n_champion c) →
  total_champion (foldl bump counts l) = total_champion counts.
Proof.
  induction l as [|x l IH]; intros counts Hf; simpl; [done|].
  rewrite IH by done.
  pose proof (total_champion_insert counts x (f (tally_of counts x))) as H.
  rewrite Hf in H. lia.
Qed.
End Bump.

Lemma iter_divisional n c :
  Nat.iter n inc_divisional c
  = {| n_divisional := n + n_divisional c; n_conf_champ := n_conf_champ c;
       n_super_bowl := n_super_bowl c; n_champion := n_champion c |}.
Proof. induction n as [|n IH]; simpl; [by destruct c|]. by rewrite IH. Qed.

Lemma iter_conf_champ n c :
  Nat.iter n inc_conf_champ c
  = {| n_divisional := n_divisional c; n_conf_champ := n + n_conf_champ c;
       n_super_bowl := n_super_bowl c; n_champion := n_champion c |}.
Proof. induction n as [|n IH]; simpl; [by destruct c|]. by rewrite IH. Qed.

Lemma iter_super_bowl n c :
  Nat.iter n inc_super_bowl c
  = {| n_divisional := n_divisional c; n_conf_champ := n_conf_champ c;
       n_super_bowl := n + n_super_bowl c; n_champion := n_champion c |}.
Proof. induction n as [|n IH]; simpl; [by destruct c|]. by rewrite IH. Qed.

Lemma truthy_named c : c ≠ ""%string → truthy (Some c) = true.
Proof. intros Hc. simpl. by apply negb_true_iff, String.eqb_neq. Qed.

(** The counts after one more bracket: each list of the bracket adds its
    occurrences of the team to the matching counter. *)
Lemma update_counts_tally counts b c0 t :
  champion b = Some c0 → c0 ≠ ""%string →
  tally_of (update_counts counts b) t =
    {| n_divisional := occ t (divisional b) + n_divisional (tally_of counts t);
       n_conf_champ := occ t (conf_champ b) + n_conf_champ (tally_of counts t);
       n_super_bowl := occ t (super_bowl b) + n_super_bowl (tally_of counts t);
       n_champion := occ t [c0] + n_champion (tally_of counts t) |}.
Proof.
  intros Hc Hne. unfold update_counts. rewrite Hc, (truthy_named c0 Hne). simpl.
  unfold bump_champion. rewrite tally_of_insert, occ_cons, occ_nil.
  case_decide as H1; case_decide as H2; try congruence; subst;
    rewrite (foldl_bump_tally inc_super_bowl), (foldl_bump_tally inc_conf_champ),
      (foldl_bump_tally inc_divisional);
    rewrite iter_super_bowl, iter_conf_champ, iter_divisional;
    unfold inc_champion; simpl; f_equal; lia.
Qed.

Lemma update_counts_keys counts b c0 t :
  champion b = Some c0 → c0 ≠ ""%string →
  is_Some (update_counts counts b !! t) ↔
    is_Some (counts !! t) ∨ t ∈ divisional b ∨ t ∈ conf_champ b ∨
    t ∈ super_bowl b ∨ t = c0.
Proof.
  intros Hc Hne. unfold update_counts. rewrite Hc, (truthy_named c0 Hne). simpl.
  unfold bump_champion. rewrite lookup_insert_is_Some.
  rewrite (foldl_bump_keys inc_super_bowl), (foldl_bump_keys inc_conf_champ),
    (foldl_bump_keys inc_divisional).
  destruct (decide (c0 = t)); subst; intuition congruence.
Qed.

Lemma update_counts_total counts b c0 :
  champion b = Some c0 → c0 ≠ ""%string →
  total_champion (update_counts counts b) = S (total_champion counts).
Proof.
  intros Hc Hne. unfold update_counts. rewrite Hc, (truthy_named c0 Hne). simpl.
  unfold bump_champion.
  match goal with |- total_champion (<[c0 := ?c]> ?m) = _ =>
    pose proof (total_champion_insert m c0 c) as H end.
  simpl in H.
  rewrite (foldl_bump_total inc_super_bowl), (foldl_bump_total inc_conf_champ),
    (foldl_bump_total inc_divisional) in H by done.
  lia.
Qed.

Lemma good_bracket_champion b :
  good_bracket b → ∃ c, champion b = Some c ∧ c ≠ ""%string ∧ c ∈ divisional b.
Proof.
  intros (Hd & _ & Hcc & Hsb & c & Hc & Hin). exists c. split; [done|].
  assert (c ∈ divisional b).
  { eapply elem_of_submseteq; [|exact Hcc].
    eapply elem_of_submseteq; [|exact Hsb].
    eapply elem_of_submseteq; [|exact Hin]. apply list_elem_of_here. }
  split; [|done]. apply seeded_teams_named. by eapply elem_of_submseteq.
Qed.

(* --------------------------------------------------------------------- *)
(* The counts after any number of brackets                                *)
(* --------------------------------------------------------------------- *)

(** What holds of the counts accumulated from brackets of the right
    shape: one championship per bracket, counters ordered along the
    rounds for every team, and an entry exactly for the teams that
    reached the divisional round in some bracket, with a positive
    divisional counter. *)
Lemma counts_invariant bs :
  Forall good_bracket bs →
  let counts := foldl update_counts ∅ bs in
  total_champion counts = length bs ∧
  (∀ t, (n_champion (tally_of counts t) ≤ n_super_bowl (tally_of counts t) ∧
         n_super_bowl (tally_of counts t) ≤ n_conf_champ (tally_of counts t) ∧
         n_conf_champ (tally_of counts t) ≤ n_divisional (tally_of counts t))%nat) ∧
  (∀ t, is_Some (counts !! t) ↔ ∃ b, b ∈ bs ∧ t ∈ divisional b) ∧
  (∀ t, is_Some (counts !! t) → (0 < n_divisional (tally_of counts t))%nat).
Proof.
  induction bs as [|b bs IH] using rev_ind; intros Hgood counts.
  - subst counts. simpl. split; [apply total_champion_empty|]. split; [|split].
    + intros t. rewrite tally_of_empty. simpl. lia.
    + intros t. rewrite lookup_empty. split; [by intros [? ?]|].
      intros (b & Hb & _). by apply elem_of_nil in Hb.
    + intros t. rewrite lookup_empty. by intros [? ?].
  - apply Forall_app in Hgood as [Hgood Hb]. apply Forall_inv in Hb.
    destruct (IH Hgood) as (Htot & Hord & Hkeys & Hpos). clear IH.
    subst counts. rewrite foldl_app. simpl.
    set (counts := foldl update_counts ∅ bs) in *.
    destruct (good_bracket_champion b Hb) as (c0 & Hc & Hne & Hin).
    destruct Hb as (Hd & _ & Hcc & Hsb & c1 & Hc1 & Hch).
    assert (c1 = c0) as -> by congruence.
    assert (Hsub : ∀ t, t ∈ conf_champ b ∨ t ∈ super_bowl b ∨ t = c0 → t ∈ divisional b).
    { intros t [H|[H| ->]]; [| |done].
      - by eapply elem_of_submseteq.
      - eapply elem_of_submseteq; [|exact Hcc]. by eapply elem_of_submseteq. }
    split; [|split; [|split]].
    + rewrite (update_counts_total counts b c0 Hc Hne), length_app. simpl. lia.
    + intros t. rewrite (update_counts_tally counts b c0 t Hc Hne). simpl.
      pose proof (Hord t). pose proof (occ_submseteq t _ _ Hch).
      pose proof (occ_submseteq t _ _ Hsb). pose proof (occ_submseteq t _ _ Hcc).
      lia.
    + intros t. rewrite (update_counts_keys counts b c0 t Hc Hne), Hkeys.
      split.
      * intros [(b' & Hb' & Ht)|Ht].
        -- exists b'. split; [|done]. apply elem_of_app. by left.
        -- exists b. split; [apply elem_of_app; right; apply list_elem_of_here|].
           destruct Ht as [Ht|Ht]; [done|]. by apply Hsub.
      * intros (b' & Hb' & Ht). apply elem_of_app in Hb' as [Hb'|Hb'].
        -- left. by exists b'.
        -- apply list_elem_of_singleton in Hb' as ->. auto.
    + intros t. rewrite (update_counts_keys counts b c0 t Hc Hne).
      rewrite (update_counts_tally counts b c0 t Hc Hne). simpl.
      intros [Ht|Ht].
      * pose proof (Hpos t Ht). lia.
      * assert (t ∈ divisional b) as Hdiv
          by (destruct Ht as [Ht|Ht]; [done|by apply Hsub]).
        apply occ_pos in Hdiv. lia.
Qed.

(* --------------------------------------------------------------------- *)
(* The trials                                                             *)
(* --------------------------------------------------------------------- *)

Lemma unrated_not_all elo t :
  t ∈ seeded_teams → elo !! t = None → ¬ all_rated elo.
Proof.
  intros Hin Hno Hall. unfold all_rated in Hall.
  rewrite Forall_forall in Hall. specialize (Hall t Hin).
  rewrite Hno in Hall. by apply is_Some_None in Hall.
Qed.

(** With every seeded team rated, the loop runs all its trials: thirteen
    games each, every bracket of the right shape, the counts updated
    bracket by bracket. *)
Lemma trials_rated n : ∀ elo hfa counts bs w,
  all_rated elo →
  ∃ bs' gs w',
    trials n elo hfa counts bs w
      = (Ok (foldl update_counts counts bs', bs ++ bs'), w') ∧
    advanced w gs w' ∧ length gs = (13 * n)%nat ∧ Forall (fair elo) gs ∧
    length bs' = n ∧ Forall good_bracket bs'.
Proof.
  induction n as [|n IH]; intros elo hfa counts bs w Hall.
  - exists [], [], w. simpl. rewrite app_nil_r.
    split; [done|]. split; [apply advanced_refl|]. auto.
  - simpl.
    destruct (bracket_cases elo hfa w)
      as [(b & gs1 & w1 & Hrun & Hadv & Hlen & Hfair & _ & Hgood)
         |(t & gs1 & w1 & _ & _ & _ & _ & Hin & Hno)].
    2:{ by destruct (unrated_not_all elo t Hin Hno). }
    rewrite (bind_ok _ _ _ _ _ Hrun).
    destruct (IH elo hfa (update_counts counts b) (bs ++ [b]) w1 Hall)
      as (bs' & gs2 & w2 & Hrest & Hadv2 & Hlen2 & Hfair2 & Hn & Hgood2).
    exists (b :: bs'), (gs1 ++ gs2), w2. rewrite Hrest, <-app_assoc. simpl.
    split; [done|]. split; [by eapply advanced_trans|].
    split; [rewrite length_app; lia|]. split; [by apply Forall_app|].
    split; [lia|]. by constructor.
Qed.

(** With a seeded team unrated, the first trial already stops. *)
Lemma trials_unrated n elo hfa counts bs w :
  ¬ all_rated elo →
  ∃ t gs w',
    trials (S n) elo hfa counts bs w = (Raise (KeyError_team t), w') ∧
    advanced w gs w' ∧ (length gs < 13)%nat ∧ Forall (fair elo) gs ∧
    t ∈ seeded_teams ∧ elo !! t = None.
Proof.
  intros Hnot. simpl.
  destruct (bracket_cases elo hfa w)
    as [(b & gs1 & w1 & _ & _ & _ & _ & Hall & _)
       |(t & gs1 & w1 & Hrun & Hadv & Hlen & Hfair & Hin & Hno)]; [done|].
  exists t, gs1, w1. by rewrite (bind_raise _ _ _ _ _ Hrun).
Qed.

Lemma sort_values_rows rows :
  rows ≠ [] → ∃ sorted_rows, sort_values rows = Ok sorted_rows ∧ sorted_rows ≡ₚ rows.
Proof.
  intros Hne. destruct rows as [|r rows]; [done|].
  eexists. split; [reflexivity|]. apply merge_sort_Permutation.
Qed.

(** A run of at least one trial over a table that rates every seeded
    team returns a frame: the rows made from the counts, reordered. *)
Lemma run_trials_rated elo hfa n w :
  all_rated elo → (1 ≤ n)%nat →
  ∃ rows bs gs w',
    run_trials elo hfa n w = (Ok (rows, bs), w') ∧
    advanced w gs w' ∧ length gs = (13 * n)%nat ∧ Forall (fair elo) gs ∧
    length bs = n ∧ Forall good_bracket bs ∧
    rows ≡ₚ prob_data n (foldl update_counts ∅ bs).
Proof.
  intros Hall Hn. unfold run_trials.
  destruct (trials_rated n elo hfa ∅ [] w Hall)
    as (bs & gs & w' & Hrun & Hadv & Hlen & Hfair & Hbs & Hgood).
  rewrite (bind_ok _ _ _ _ _ Hrun). simpl.
  destruct (sort_values_rows (prob_data n (foldl update_counts ∅ bs)))
    as (rows & Hsort & Hperm).
  { destruct bs as [|b bs]; [simpl in Hbs; lia|].
    destruct (counts_invariant (b :: bs) Hgood) as (_ & _ & Hkeys & _).
    pose proof (Forall_inv Hgood) as (_ & Hl & _).
    destruct (divisional b) as [|t ts] eqn:Hdiv; [discriminate|].
    destruct (proj2 (Hkeys t)) as [c Hc].
    { exists b. split; [apply list_elem_of_here|]. rewrite Hdiv. apply list_elem_of_here. }
    unfold prob_data. intros Hnil. apply fmap_nil_inv in Hnil.
    apply map_to_list_empty_iff in Hnil. rewrite Hnil in Hc. by rewrite lookup_empty in Hc. }
  rewrite (bind_lift_ok _ _ _ _ Hsort).
  exists rows, bs, gs, w'. auto 10.
Qed.

(* --------------------------------------------------------------------- *)
(* The probability frame                                                  *)
(* --------------------------------------------------------------------- *)

Lemma sum_win_Permutation rows rows' : rows ≡ₚ rows' → sum_win rows = sum_win rows'.
Proof. induction 1; simpl in *; lra. Qed.

Lemma sum_win_rows n (items : list (string * tally)) :
  sum_win (row_of n <$> items)
  = INR (sum_list_with (λ item, n_champion item.2) items) / INR n.
Proof.
  induction items as [|item items IH].
  - simpl. unfold Rdiv. ring.
  - rewrite fmap_cons. change (sum_win (row_of n item :: (row_of n <$> items)))
      with (pct_win_superbowl (row_of n item) + sum_win (row_of n <$> items)).
    rewrite IH. simpl. rewrite plus_INR. unfold Rdiv. ring.
Qed.

Lemma sum_win_prob_data n counts :
  sum_win (prob_data n counts) = INR (total_champion counts) / INR n.
Proof. apply sum_win_rows. Qed.

Lemma prob_data_teams n counts : team <$> prob_data n counts = (map_to_list counts).*1.
Proof. unfold prob_data. rewrite <-list_fmap_compose. reflexivity. Qed.

Lemma prob_data_row n counts row :
  row ∈ prob_data n counts →
  ∃ t c, counts !! t = Some c ∧ row = row_of n (t, c).
Proof.
  unfold prob_data. intros Hin. apply list_elem_of_fmap in Hin as ([t c] & -> & Hin).
  apply elem_of_map_to_list in Hin. eauto.
Qed.

Lemma prob_data_team n counts t :
  t ∈ team <$> prob_data n counts ↔ is_Some (counts !! t).
Proof.
  rewrite prob_data_teams, list_elem_of_fmap. split.
  - intros ([t' c] & -> & Hin). apply elem_of_map_to_list in Hin. by exists c.
  - intros [c Hc]. exists (t, c). split; [done|]. by apply elem_of_map_to_list.
Qed.

Lemma run_simulations_of_trials elo hfa n w rows bs w' :
  run_trials elo hfa n w = (Ok (rows, bs), w') →
  run_simulations elo hfa n w = (Ok rows, w').
Proof. intros H. unfold run_simulations. by rewrite (bind_ok _ _ _ _ _ H). Qed.

Lemma run_simulations_raise elo hfa n w e w' :
  trials n elo hfa ∅ [] w = (Raise e, w') →
  run_simulations elo hfa n w = (Raise e, w').
Proof.
  intros H. unfold run_simulations, run_trials.
  by rewrite (bind_raise _ _ _ _ _ (bind_raise _ _ _ _ _ H)).
Qed.

(* --------------------------------------------------------------------- *)
(* Reseeding                                                              *)
(* --------------------------------------------------------------------- *)

Lemma sorted_four ss a b c :
  ss ≡ₚ [1; a; b; c]%nat → (1 < a)%nat → (a < b)%nat → (b < c)%nat →
  sorted ss = [1; a; b; c]%nat.
Proof.
  intros Hperm H1 H2 H3. unfold sorted.
  apply (Sorted_unique le).
  - apply Sorted_merge_sort. apply _.
  - repeat constructor; lia.
  - by rewrite merge_sort_Permutation.
Qed.

Lemma seeds_of_teams_fmap (t2s : gmap string nat) teams :
  (∀ t, t ∈ teams → is_Some (t2s !! t)) →
  seeds_of_teams t2s teams = Ok ((λ t, default 0%nat (t2s !! t)) <$> teams).
Proof.
  induction teams as [|t teams IH]; intros Hall; simpl; [done|].
  destruct (Hall t) as [s Hs]; [apply list_elem_of_here|].
  rewrite Hs, IH; [done|]. intros t' Ht'. apply Hall. by apply list_elem_of_further.
Qed.

(** The pairing of the divisional round: whatever the order of the four
    survivors, seed 1 hosts the largest remaining seed, then the smaller
    of the other two hosts the larger. *)
Lemma divisional_pairing seeds elo hfa w winners t1 ta tb tc a b c :
  NoDup seeds.*2 →
  seed_team seeds 1 = Ok t1 → seed_team seeds a = Ok ta →
  seed_team seeds b = Ok tb → seed_team seeds c = Ok tc →
  (1 < a)%nat → (a < b)%nat → (b < c)%nat →
  winners ≡ₚ [t1; ta; tb; tc] →
  simulate_divisional winners seeds elo hfa w =
    play_all false [(t1, tc); (ta, tb)] elo hfa w.
Proof.
  intros Hnd H1 Ha Hb Hc L1 L2 L3 Hperm.
  pose proof (team_to_seed_of _ _ _ Hnd H1) as S1.
  pose proof (team_to_seed_of _ _ _ Hnd Ha) as Sa.
  pose proof (team_to_seed_of _ _ _ Hnd Hb) as Sb.
  pose proof (team_to_seed_of _ _ _ Hnd Hc) as Sc.
  set (f := λ t, default 0%nat (team_to_seed seeds !! t)).
  assert (Hss : seeds_of_teams (team_to_seed seeds) winners = Ok (f <$> winners)).
  { apply seeds_of_teams_fmap. intros t Ht. rewrite Hperm in Ht.
    repeat (apply elem_of_cons in Ht as [-> | Ht]); eauto.
    by apply elem_of_nil in Ht. }
  assert (Hsorted : sorted (f <$> winners) = [1; a; b; c]%nat).
  { apply sorted_four; try done. rewrite Hperm. simpl. unfold f.
    by rewrite S1, Sa, Sb, Sc. }
  assert (Hothers : filter (λ s, s ≠ 1%nat ∧ s ≠ c) [1; a; b; c]%nat = [a; b]).
  { rewrite !filter_cons, filter_nil.
    repeat case_decide; try done; exfalso; lia. }
  apply (simulate_divisional_run winners seeds elo hfa w (f <$> winners)
           t1 c tc a b ta tb); try done.
  - rewrite Hsorted. simpl. f_equal. lia.
  - rewrite Hsorted, Hothers. simpl. f_equal. lia.
  - rewrite Hsorted, Hothers. simpl. f_equal. lia.
Qed.

(** C3. In the divisional round of a conference whose seeding names
    distinct teams, given the four survivors in any order, holding seed 1
    and three larger seeds a < b < c, two games are resolved, in this
    order: the team of seed 1 hosts the team of seed c, the largest, and
    the team of seed a hosts the team of seed b; the winners of the two
    games are returned. *)
Theorem divisional_reseeding seeds elo hfa w winners t1 ta tb tc a b c :
  NoDup seeds.*2 →
  seed_team seeds 1 = Ok t1 → seed_team seeds a = Ok ta →
  seed_team seeds b = Ok tb → seed_team seeds c = Ok tc →
  (1 < a)%nat → (a < b)%nat → (b < c)%nat →
  winners ≡ₚ [t1; ta; tb; tc] →
  Forall (λ t, is_Some (elo !! t)) [t1; ta; tb; tc] →
  ∃ g1 g2 w',
    simulate_divisional winners seeds elo hfa w
      = (Ok [g_winner g1; g_winner g2], w') ∧
    advanced w [g1; g2] w' ∧
    game_of false elo (t1, tc) g1 ∧ game_of false elo (ta, tb) g2.
Proof.
  intros Hnd H1 Ha Hb Hc L1 L2 L3 Hperm Hrated.
  rewrite (divisional_pairing seeds elo hfa w winners t1 ta tb tc a b c) by done.
  destruct (play_all_cases false [(t1, tc); (ta, tb)] elo hfa w)
    as [(gs & w' & Hrun & Hadv & Hgs)
       |(t & gs & w' & h & x & _ & _ & _ & Hat & Ht & Hno)].
  - apply Forall2_cons_inv_l in Hgs as (g1 & gs1 & Hg1 & Hgs & ->).
    apply Forall2_cons_inv_l in Hgs as (g2 & gs2 & Hg2 & Hgs & ->).
    apply Forall2_nil_inv_l in Hgs as ->.
    exists g1, g2, w'. auto.
  - exfalso. rewrite Forall_forall in Hrated.
    assert (t ∈ [t1; ta; tb; tc]) as Hin.
    { destruct gs as [|? [|? ?]]; simpl in Hat; [| |done];
        injection Hat as <- <-; destruct Ht as [-> | ->];
        rewrite !elem_of_cons; tauto. }
    specialize (Hrated t Hin). rewrite Hno in Hrated. by apply is_Some_None in Hrated.
Qed.

Lemma level_table_rated : all_rated level_table.
Proof. apply (bool_decide_unpack _). vm_compute. exact I. Qed.

Lemma divisional_reseeding_witness :
  ∃ g1 g2 w',
    simulate_divisional ["DEN"; "NE"; "PIT"; "LAC"] PLAYOFF_SEEDS_AFC
        level_table 55 (start zeros)
      = (Ok [g_winner g1; g_winner g2], w') ∧
    advanced (start zeros) [g1; g2] w' ∧
    game_of false level_table ("DEN", "LAC") g1 ∧
    game_of false level_table ("NE", "PIT") g2.
Proof.
  apply (divisional_reseeding PLAYOFF_SEEDS_AFC level_table 55 (start zeros)
           ["DEN"; "NE"; "PIT"; "LAC"] "DEN" "NE" "PIT" "LAC" 2 4 7).
  - exact afc_teams_distinct.
  - reflexivity.
  - reflexivity.
  - reflexivity.
  - reflexivity.
  - lia.
  - lia.
  - lia.
  - reflexivity.
  - apply (bool_decide_unpack _). vm_compute. exact I.
Defined.

(* --------------------------------------------------------------------- *)
(* The aggregate                                                          *)
(* --------------------------------------------------------------------- *)

Lemma sum_over_Permutation teams teams' f :
  teams ≡ₚ teams' → sum_over teams f = sum_over teams' f.
Proof. induction 1; simpl in *; lra. Qed.

Lemma sum_over_app l k f : sum_over (l ++ k) f = sum_over l f + sum_over k f.
Proof. induction l as [|t l IH]; simpl; [lra|]. rewrite IH. lra. Qed.

Lemma sum_over_ext l f g :
  (∀ t, t ∈ l → f t = g t) → sum_over l f = sum_over l g.
Proof.
  induction l as [|t l IH]; intros Hfg; simpl; [done|].
  rewrite (Hfg t) by apply list_elem_of_here.
  rewrite IH; [done|]. intros t' Ht'. apply Hfg. by apply list_elem_of_further.
Qed.

Lemma pct_win_of_absent rows t : t ∉ team <$> rows → pct_win_of rows t = 0.
Proof.
  induction rows as [|r rows IH]; simpl; [done|].
  rewrite not_elem_of_cons. intros [Hne Hnot].
  case_decide; [congruence|]. by apply IH.
Qed.

(** Summing, over the teams that have a row, the value found for each is
    summing the column. *)
Lemma sum_over_rows rows :
  NoDup (team <$> rows) → sum_over (team <$> rows) (pct_win_of rows) = sum_win rows.
Proof.
  induction rows as [|r rows IH]; [done|].
  rewrite fmap_cons, NoDup_cons. intros [Hfresh Hnd].
  change (sum_over (team r :: (team <$> rows)) (pct_win_of (r :: rows)))
    with (pct_win_of (r :: rows) (team r)
          + sum_over (team <$> rows) (pct_win_of (r :: rows))).
  change (sum_win (r :: rows)) with (pct_win_superbowl r + sum_win rows).
  rewrite <-(IH Hnd). f_equal.
  - simpl. by case_decide.
  - apply sum_over_ext. intros t Ht. simpl. case_decide; [|done]. by subst.
Qed.

(** Summing over a list of distinct teams that has every team of the
    frame is summing the column as well: teams without a row add 0. *)
Lemma sum_over_teams rows teams :
  NoDup teams → NoDup (team <$> rows) →
  (∀ t, t ∈ team <$> rows → t ∈ teams) →
  sum_over teams (pct_win_of rows) = sum_win rows.
Proof.
  intros Hteams Hrows Hsub.
  destruct (submseteq_Permutation (team <$> rows) teams) as [rest Hperm].
  { by apply NoDup_submseteq. }
  rewrite (sum_over_Permutation _ _ _ Hperm), sum_over_app, (sum_over_rows rows Hrows).
  rewrite (sum_over_ext rest _ (λ _, 0)).
  - assert (Hz : ∀ l : list string, sum_over l (λ _, 0) = 0)
      by (induction l; simpl; lra).
    rewrite Hz. lra.
  - intros t Ht. apply pct_win_of_absent. intros Hin.
    rewrite Hperm in Hteams. apply NoDup_app in Hteams as (_ & Hdisj & _).
    by apply (Hdisj t).
Qed.

(** C4. For every number of trials N > 0 and every table that rates the
    seeded teams, the run returns a frame in which pct_win_superbowl,
    summed over the fourteen seeded teams, is 1. The rows of the frame are
    for distinct seeded teams, so this is the sum of the column; a seeded
    team without a row adds nothing. *)
Theorem champion_column_sums_to_one elo hfa n w :
  all_rated elo → (0 < n)%nat →
  ∃ rows w',
    run_simulations elo hfa n w = (Ok rows, w') ∧
    sum_over seeded_teams (pct_win_of rows) = 1 ∧
    sum_win rows = 1 ∧
    NoDup (team <$> rows) ∧
    (∀ t, t ∈ team <$> rows → t ∈ seeded_teams).
Proof.
  intros Hall Hn.
  destruct (run_trials_rated elo hfa n w Hall)
    as (rows & bs & gs & w' & Hrun & _ & _ & _ & Hlen & Hgood & Hperm); [lia|].
  destruct (counts_invariant bs Hgood) as (Htot & _ & Hkeys & _).
  exists rows, w'. split; [by eapply run_simulations_of_trials|].
  assert (Hsum : sum_win rows = 1).
  { rewrite (sum_win_Permutation _ _ Hperm), sum_win_prob_data, Htot, Hlen.
    apply Rdiv_diag. apply not_0_INR. lia. }
  assert (Hnd : NoDup (team <$> rows)).
  { rewrite Hperm, prob_data_teams. apply NoDup_fst_map_to_list. }
  assert (Hsub : ∀ t, t ∈ team <$> rows → t ∈ seeded_teams).
  { intros t. rewrite Hperm, prob_data_team, Hkeys.
    intros (b & Hb & Ht). rewrite Forall_forall in Hgood.
    destruct (Hgood b Hb) as (Hsub & _). by eapply elem_of_submseteq. }
  split; [|done].
  by rewrite (sum_over_teams rows seeded_teams seeded_teams_distinct Hnd Hsub).
Qed.

Lemma champion_column_sums_to_one_witness :
  ∃ rows w',
    run_simulations level_table 55 3 (start zeros) = (Ok rows, w') ∧
    sum_over seeded_teams (pct_win_of rows) = 1 ∧
    sum_win rows = 1 ∧
    NoDup (team <$> rows) ∧
    (∀ t, t ∈ team <$> rows → t ∈ seeded_teams).
Proof.
  apply (champion_column_sums_to_one level_table 55 3 (start zeros)).
  - exact level_table_rated.
  - lia.
Defined.

(** C5. For every number of trials N > 0 (a run of no trial returns no
    frame) and every table that rates the seeded teams, every row of the
    returned frame has pct_win_superbowl ≤ pct_make_superbowl ≤
    pct_make_conf_champ ≤ pct_make_divisional. *)
Theorem milestones_are_monotone elo hfa n w :
  all_rated elo → (0 < n)%nat →
  ∃ rows w',
    run_simulations elo hfa n w = (Ok rows, w') ∧
    ∀ row, row ∈ rows →
      pct_win_superbowl row <= pct_make_superbowl row ∧
      pct_make_superbowl row <= pct_make_conf_champ row ∧
      pct_make_conf_champ row <= pct_make_divisional row.
Proof.
  intros Hall Hn.
  destruct (run_trials_rated elo hfa n w Hall)
    as (rows & bs & gs & w' & Hrun & _ & _ & _ & Hlen & Hgood & Hperm); [lia|].
  destruct (counts_invariant bs Hgood) as (_ & Hord & _ & _).
  exists rows, w'. split; [by eapply run_simulations_of_trials|].
  intros row Hrow. rewrite Hperm in Hrow.
  apply prob_data_row in Hrow as (t & c & Hc & ->).
  specialize (Hord t). rewrite (tally_of_lookup _ _ _ Hc) in Hord.
  destruct Hord as (H1 & H2 & H3). simpl.
  assert (Hinv : 0 <= / INR n).
  { apply Rlt_le, Rinv_0_lt_compat, lt_0_INR. lia. }
  unfold Rdiv. repeat split; apply Rmult_le_compat_r; auto using le_INR.
Qed.

Lemma milestones_are_monotone_witness :
  ∃ rows w',
    run_simulations level_table 55 3 (start zeros) = (Ok rows, w') ∧
    ∀ row, row ∈ rows →
      pct_win_superbowl row <= pct_make_superbowl row ∧
      pct_make_superbowl row <= pct_make_conf_champ row ∧
      pct_make_conf_champ row <= pct_make_divisional row.
Proof.
  apply (milestones_are_monotone level_table 55 3 (start zeros)).
  - exact level_table_rated.
  - lia.
Defined.

(** C9 (as amended). The frame returned by a run has a row exactly for
    the teams that reached the divisional round in at least one trial,
    each with a positive pct_make_divisional; a seeded team that never
    got that far has no row. *)
Theorem frame_lists_teams_that_advanced elo hfa n w :
  all_rated elo → (0 < n)%nat →
  ∃ rows bs w',
    run_trials elo hfa n w = (Ok (rows, bs), w') ∧
    run_simulations elo hfa n w = (Ok rows, w') ∧
    length bs = n ∧
    (∀ t, t ∈ team <$> rows ↔ ∃ b, b ∈ bs ∧ t ∈ divisional b) ∧
    (∀ row, row ∈ rows → 0 < pct_make_divisional row).
Proof.
  intros Hall Hn.
  destruct (run_trials_rated elo hfa n w Hall)
    as (rows & bs & gs & w' & Hrun & _ & _ & _ & Hlen & Hgood & Hperm); [lia|].
  destruct (counts_invariant bs Hgood) as (_ & _ & Hkeys & Hpos).
  exists rows, bs, w'. split; [done|].
  split; [by eapply run_simulations_of_trials|]. split; [done|]. split.
  - intros t. by rewrite Hperm, prob_data_team, Hkeys.
  - intros row Hrow. rewrite Hperm in Hrow.
    apply prob_data_row in Hrow as (t & c & Hc & ->).
    assert (Hs : is_Some (foldl update_counts ∅ bs !! t)) by eauto.
    specialize (Hpos t Hs). rewrite (tally_of_lookup _ _ _ Hc) in Hpos. simpl.
    apply Rdiv_lt_0_compat; apply lt_0_INR; lia.
Qed.

Lemma frame_lists_teams_that_advanced_witness :
  ∃ rows bs w',
    run_trials level_table 55 1 (start zeros) = (Ok (rows, bs), w') ∧
    run_simulations level_table 55 1 (start zeros) = (Ok rows, w') ∧
    length bs = 1%nat ∧
    (∀ t, t ∈ team <$> rows ↔ ∃ b, b ∈ bs ∧ t ∈ divisional b) ∧
    (∀ row, row ∈ rows → 0 < pct_make_divisional row).
Proof.
  apply (frame_lists_teams_that_advanced level_table 55 1 (start zeros)).
  - exact level_table_rated.
  - lia.
Defined.

(** C9, as stated, fails: after a single trial the frame has rows for the
    eight teams of the divisional round only, so some of the fourteen
    seeded teams have no row at all. *)
Lemma single_trial_omits_teams :
  ∃ rows w',
    run_simulations level_table 55 1 (start zeros) = (Ok rows, w') ∧
    ¬ (∀ t, t ∈ seeded_teams → t ∈ team <$> rows).
Proof.
  destruct (run_trials_rated level_table 55 1 (start zeros) level_table_rated)
    as (rows & bs & gs & w' & Hrun & _ & _ & _ & Hlen & Hgood & Hperm); [lia|].
  destruct (counts_invariant bs Hgood) as (_ & _ & Hkeys & _).
  exists rows, w'. split; [by eapply run_simulations_of_trials|].
  intros Hall.
  destruct bs as [|b [|? ?]]; try discriminate Hlen.
  apply Forall_inv in Hgood as (_ & Hl & _).
  assert (Hsub : seeded_teams ⊆+ divisional b).
  { apply NoDup_submseteq; [apply seeded_teams_distinct|].
    intros t Ht. specialize (Hall t Ht).
    rewrite Hperm, prob_data_team, Hkeys in Hall.
    destruct Hall as (b' & Hb' & Hin). by apply list_elem_of_singleton in Hb' as ->. }
  apply submseteq_length in Hsub. rewrite Hl in Hsub. simpl in Hsub. lia.
Qed.

(* --------------------------------------------------------------------- *)
(* A rating table that misses a seeded team                               *)
(* --------------------------------------------------------------------- *)

(** C1 (as amended). If the rating table misses a seeded team, a run of
    at least one trial raises KeyError for a seeded team without rating
    and returns no frame. The exception is raised inside the first trial,
    by the first rating lookup of such a team: the games scheduled before
    it, fewer than thirteen and all between rated teams, have been
    resolved, with one draw each; no game is resolved with a rating that
    the table does not hold. *)
Theorem missing_rating_stops_first_trial elo hfa n w t0 :
  t0 ∈ seeded_teams → elo !! t0 = None → (0 < n)%nat →
  ∃ t gs w',
    run_simulations elo hfa n w = (Raise (KeyError_team t), w') ∧
    t ∈ seeded_teams ∧ elo !! t = None ∧
    advanced w gs w' ∧ (length gs < 13)%nat ∧ Forall (fair elo) gs.
Proof.
  intros Hin Hno Hn. destruct n as [|n]; [lia|].
  destruct (trials_unrated n elo hfa ∅ [] w (unrated_not_all elo t0 Hin Hno))
    as (t & gs & w' & Hrun & Hadv & Hlen & Hfair & Ht & Hnot).
  exists t, gs, w'. split; [by apply run_simulations_raise|]. auto.
Qed.

Lemma table_without_SEA : table_without "SEA" !! "SEA"%string = None.
Proof. apply lookup_delete_eq. Qed.

Lemma SEA_is_seeded : "SEA"%string ∈ seeded_teams.
Proof. apply (bool_decide_unpack _). vm_compute. exact I. Qed.

Lemma missing_rating_stops_first_trial_witness :
  ∃ t gs w',
    run_simulations (table_without "SEA") 55 3 (start zeros)
      = (Raise (KeyError_team t), w') ∧
    t ∈ seeded_teams ∧ table_without "SEA" !! t = None ∧
    advanced (start zeros) gs w' ∧ (length gs < 13)%nat ∧
    Forall (fair (table_without "SEA")) gs.
Proof.
  apply (missing_rating_stops_first_trial (table_without "SEA") 55 3 (start zeros) "SEA").
  - exact SEA_is_seeded.
  - exact table_without_SEA.
  - lia.
Defined.

Lemma table_without_SEA_others :
  Forall (λ t, is_Some (table_without "SEA" !! t))
    (PLAYOFF_SEEDS_AFC.*2 ++ ["CHI"; "PHI"; "CAR"; "LA"; "SF"; "GB"]).
Proof. apply (bool_decide_unpack _). vm_compute. exact I. Qed.

(** C1, as stated, fails: with the table missing only the first seed of
    the second conference, the exception is raised after nine games have
    been resolved and nine variates drawn. *)
Lemma missing_top_seed_fails_after_nine_games :
  ∃ w',
    run_simulations (table_without "SEA") 55 1 (start zeros)
      = (Raise (KeyError_team "SEA"), w') ∧
    drawn w' = 9%nat ∧ length (played w') = 9%nat.
Proof.
  pose proof table_without_SEA_others as Hrated. rewrite Forall_forall in Hrated.
  set (elo := table_without "SEA") in *.
  destruct (conference_cases PLAYOFF_SEEDS_AFC "DEN" "NE" "JAX" "PIT" "HOU" "BUF" "LAC"
              afc_teams_distinct eq_refl eq_refl eq_refl eq_refl eq_refl eq_refl eq_refl
              elo 55 (start zeros))
    as [(awc & adv & ach & gs1 & w1 & Hrun1 & Hadv1 & Hlen1 & _)
       |(t & gs1 & w1 & _ & _ & _ & Hno & Ht)].
  2:{ exfalso. assert (Hin : t ∈ PLAYOFF_SEEDS_AFC.*2).
      { destruct Ht as [[Ht _]|[-> _]]; [by apply list_elem_of_further|apply list_elem_of_here]. }
      assert (Hs : is_Some (elo !! t)) by (apply Hrated, elem_of_app; by left).
      rewrite Hno in Hs. by apply is_Some_None in Hs. }
  destruct (conference_cases PLAYOFF_SEEDS_NFC "SEA" "CHI" "PHI" "CAR" "LA" "SF" "GB"
              nfc_teams_distinct eq_refl eq_refl eq_refl eq_refl eq_refl eq_refl eq_refl
              elo 55 w1)
    as [(nwc & ndv & nch & gs2 & w2 & _ & _ & _ & _ & Hall & _)
       |(t & gs2 & w2 & Hrun2 & Hadv2 & _ & Hno & Ht)].
  { exfalso. apply Forall_inv in Hall. unfold elo in Hall.
    rewrite table_without_SEA in Hall. by apply is_Some_None in Hall. }
  destruct Ht as [[Ht _]|[-> Hlen2]].
  { exfalso. assert (Hs : is_Some (elo !! t)) by (apply Hrated, elem_of_app; by right).
    rewrite Hno in Hs. by apply is_Some_None in Hs. }
  exists w2. split.
  - apply run_simulations_raise. simpl.
    apply bind_raise. rewrite simulate_one_bracket_conferences.
    rewrite (bind_ok _ _ _ _ _ Hrun1). by apply bind_raise.
  - pose proof (advanced_trans _ _ _ _ _ Hadv1 Hadv2) as (_ & Hd & Hp).
    rewrite Hd, Hp, !length_app, Hlen1, Hlen2. simpl. done.
Qed.

(* --------------------------------------------------------------------- *)
(* Reproducibility                                                        *)
(* --------------------------------------------------------------------- *)

(** C8. Two runs of [main] given the same seed, number of trials, rating
    table and home advantage return the same frame (or raise the same
    exception) and resolve the same games with the same winners, in the
    same order, whatever state the generator was in when each process
    started. *)
Theorem seeded_runs_agree (mt19937 : Z → nat → R) seed elo hfa sims
    (entropy1 entropy2 : nat → R) :
  (main mt19937 (Some seed) elo hfa sims (start entropy1)).1
    = (main mt19937 (Some seed) elo hfa sims (start entropy2)).1 ∧
  played (main mt19937 (Some seed) elo hfa sims (start entropy1)).2
    = played (main mt19937 (Some seed) elo hfa sims (start entropy2)).2.
Proof. split; reflexivity. Qed.

End PlayoffFacts.

(* ===================================================================== *)
(* More about the rating engine: the loop in parts, the initial table *)
(* ===================================================================== *)
Module EloMore.
Import BuildElo EloFacts.

Lemma pow10_lt x y : Rpower 10 x < Rpower 10 y ↔ x < y.
Proof.
  split.
  - intros H. destruct (Rtotal_order x y) as [Hlt|[Heq|Hgt]]; [done| |].
    + subst. lra.
    + apply (Rpower_lt 10) in Hgt; lra.
  - apply Rpower_lt. lra.
Qed.

Lemma inverse_logistic_lt x y :
  0 < x → 0 < y → (1 / (1 + x) < 1 / (1 + y) ↔ y < x).
Proof.
  intros Hx Hy. split; intros H.
  - destruct (Rle_or_lt x y) as [Hle|]; [|done]. exfalso.
    assert (1 / (1 + y) <= 1 / (1 + x)); [|lra].
    unfold Rdiv. rewrite !Rmult_1_l. apply Rinv_le_contravar; lra.
  - unfold Rdiv. rewrite !Rmult_1_l. apply Rinv_lt_contravar; [|lra].
    apply Rmult_lt_0_compat; lra.
Qed.

Lemma win_probability_lt a b hfa a' b' hfa' :
  compute_win_probability a b hfa < compute_win_probability a' b' hfa'
  ↔ (a + hfa) - b < (a' + hfa') - b'.
Proof.
  unfold compute_win_probability.
  rewrite inverse_logistic_lt by apply pow10_pos.
  rewrite pow10_lt. lra.
Qed.

(** X1. The win probability orders games exactly as the rating
    difference (elo_home + hfa) - elo_away does: a larger difference gives
    a strictly larger probability and conversely; the probability is never
    0 or 1. *)
Theorem win_probability_follows_difference a b hfa a' b' hfa' :
  (compute_win_probability a b hfa < compute_win_probability a' b' hfa'
   ↔ (a + hfa) - b < (a' + hfa') - b') ∧
  0 < compute_win_probability a b hfa < 1.
Proof. split; [apply win_probability_lt|apply win_probability_bounds]. Qed.

(** X2. The home team is favoured exactly when its rating plus the home
    advantage exceeds the rating of the visitor; at equality the
    probability is one half. *)
Theorem favourite_is_higher_rated a b hfa :
  (1 / 2 < compute_win_probability a b hfa ↔ b < a + hfa) ∧
  (a + hfa = b → compute_win_probability a b hfa = 1 / 2).
Proof.
  assert (Heven : ∀ x y h, x + h = y → compute_win_probability x y h = 1 / 2).
  { intros x y h Heq. unfold compute_win_probability.
    replace (- (x + h - y) / 400) with 0 by (rewrite Heq; field).
    rewrite Rpower_O by lra. lra. }
  split; [|apply Heven].
  rewrite <-(Heven b b 0) by lra.
  rewrite win_probability_lt. lra.
Qed.

(* --------------------------------------------------------------------- *)
(* The loop, piece by piece                                               *)
(* --------------------------------------------------------------------- *)

Lemma update_loop_acc df : ∀ elo k hfa acc,
  update_loop elo df k hfa acc =
    match update_loop elo df k hfa [] with
    | Ok (elo', game_log) => Ok (elo', acc ++ game_log)
    | Raise e => Raise e
    end.
Proof.
  induction df as [|row df IH]; intros elo k hfa acc; simpl.
  - by rewrite app_nil_r.
  - destruct (process_row elo row k hfa) as [[elo1 e]|err]; [|done].
    rewrite (IH elo1 k hfa (acc ++ [e])), (IH elo1 k hfa [e]).
    destruct (update_loop elo1 df k hfa []) as [[elo2 l]|err]; [|done].
    by rewrite <-app_assoc.
Qed.

Lemma update_loop_app df1 : ∀ df2 elo k hfa acc,
  update_loop elo (df1 ++ df2) k hfa acc =
    match update_loop elo df1 k hfa acc with
    | Ok (elo1, log1) => update_loop elo1 df2 k hfa log1
    | Raise e => Raise e
    end.
Proof.
  induction df1 as [|row df1 IH]; intros df2 elo k hfa acc; simpl; [done|].
  destruct (process_row elo row k hfa) as [[elo1 e]|err]; [|done].
  apply IH.
Qed.

(** X3. Processing a schedule in two parts, the second on the table left
    by the first, gives the table of processing it in one go, and the two
    logs one after the other are its log; an exception in either part is
    the exception of the whole. *)
Theorem update_in_two_parts elo df1 df2 k hfa :
  update_elo_ratings elo (df1 ++ df2) k hfa =
    match update_elo_ratings elo df1 k hfa with
    | Raise e => Raise e
    | Ok (elo1, log1) =>
      match update_elo_ratings elo1 df2 k hfa with
      | Raise e => Raise e
      | Ok (elo2, log2) => Ok (elo2, log1 ++ log2)
      end
    end.
Proof.
  unfold update_elo_ratings. rewrite update_loop_app.
  destruct (update_loop elo df1 k hfa []) as [[elo1 log1]|err]; [|done].
  apply update_loop_acc.
Qed.

(** X4. The loop stops at the first row that names a team without rating:
    the rows before it being processed, it raises KeyError for the home
    team of that row if the home team is unrated, for its away team
    otherwise, and returns neither table nor log. *)
Theorem first_unrated_team_raises elo before row after k hfa :
  Forall (rated elo) before → ¬ rated elo row →
  update_elo_ratings elo (before ++ row :: after) k hfa =
    Raise (KeyError_team (if elo !! home_team row is Some _
                          then away_team row else home_team row)).
Proof.
  intros Hbefore Hrow. unfold update_elo_ratings.
  rewrite update_loop_app.
  destruct (update_loop_rated before elo k hfa [] Hbefore)
    as (elo1 & entries & Hrun & _ & Hkeep & _).
  rewrite Hrun. simpl. unfold process_row, rating_of.
  destruct (elo !! home_team row) as [rh|] eqn:Hh.
  - destruct (proj2 (Hkeep (home_team row))) as [rh1 Hh1]; [by rewrite Hh|].
    rewrite Hh1.
    destruct (elo1 !! away_team row) as [ra1|] eqn:Ha1; [|done].
    exfalso. apply Hrow. split; [by rewrite Hh|].
    apply Hkeep. by rewrite Ha1.
  - destruct (elo1 !! home_team row) as [rh1|] eqn:Hh1; [|done].
    assert (is_Some (elo !! home_team row)) as [? ?] by (apply Hkeep; by rewrite Hh1).
    congruence.
Qed.

Lemma first_unrated_team_raises_witness :
  update_elo_ratings two_teams
      (sample_rows ++ {| gameday := "2026-01-04"; home_team := "DEN";
                         away_team := "LV"; home_score := Pts 30;
                         away_score := Pts 3 |} :: sample_rows) 30 55
  = Raise (KeyError_team "LV").
Proof.
  apply (first_unrated_team_raises two_teams sample_rows
           {| gameday := "2026-01-04"; home_team := "DEN"; away_team := "LV";
              home_score := Pts 30; away_score := Pts 3 |} sample_rows 30 55).
  - exact sample_rows_rated.
  - intros [_ [r Hr]]. simpl in Hr. unfold two_teams in Hr.
    rewrite !lookup_insert_ne, lookup_empty in Hr by done. discriminate.
Defined.

(** X5. With a positive K, no record of the log moves a rating away
    from the result, nor by more than K: after a home win 0 <= delta <= K,
    the home rating does not fall and the away rating does not rise;
    otherwise -K <= delta <= 0, the home rating does not rise and the away
    rating does not fall. The bounds are stated without strictness: the
    probability of the code, a double, can be exactly 1 (see
    [DoubleFacts.large_gap_saturates] for the same expression), and its
    delta is then 0. *)
Theorem update_moves_towards_result elo df k hfa :
  0 < k → Forall (rated elo) df →
  ∃ elo' game_log,
    update_elo_ratings elo df k hfa = Ok (elo', game_log) ∧
    Forall (λ e,
      (actual_home_win e = 1%Z →
         0 <= delta e <= k ∧
         elo_home_before e <= elo_home_after e ∧ elo_away_after e <= elo_away_before e) ∧
      (actual_home_win e = 0%Z →
         - k <= delta e <= 0 ∧
         elo_home_after e <= elo_home_before e ∧ elo_away_before e <= elo_away_after e))
      game_log.
Proof.
  intros Hk Hr.
  destruct (update_elo_ratings_rated elo df k hfa Hr)
    as (elo' & game_log & Hrun & Hall & _).
  exists elo', game_log. split; [done|].
  clear Hrun Hr. induction Hall as [|row e df' log' He _ IH]; constructor; [|done].
  destruct He as (_ & _ & _ & _ & _ & Hp & _ & Hd & Hh & Ha).
  pose proof (win_probability_bounds (elo_home_before e) (elo_away_before e) hfa) as Hb.
  rewrite <-Hp in Hb. rewrite Hh, Ha, Hd.
  split; intros ->; simpl; nra.
Qed.

Lemma update_moves_towards_result_witness :
  ∃ elo' game_log,
    update_elo_ratings two_teams sample_rows 30 55 = Ok (elo', game_log) ∧
    Forall (λ e,
      (actual_home_win e = 1%Z →
         0 <= delta e <= 30 ∧
         elo_home_before e <= elo_home_after e ∧ elo_away_after e <= elo_away_before e) ∧
      (actual_home_win e = 0%Z →
         - 30 <= delta e <= 0 ∧
         elo_home_after e <= elo_home_before e ∧ elo_away_before e <= elo_away_after e))
      game_log.
Proof.
  apply (update_moves_towards_result two_teams sample_rows 30 55).
  - lra.
  - exact sample_rows_rated.
Defined.

Lemma replay_snoc elo game_log e :
  replay elo (game_log ++ [e]) =
    <[log_away_team e := elo_away_after e]>
      (<[log_home_team e := elo_home_after e]> (replay elo game_log)).
Proof. unfold replay. by rewrite foldl_app. Qed.

Lemma update_loop_replay df : ∀ elo k hfa acc elo' game_log,
  update_loop elo df k hfa acc = Ok (elo', game_log) →
  ∃ entries, game_log = acc ++ entries ∧ elo' = replay elo entries.
Proof.
  induction df as [|row df IH]; intros elo k hfa acc elo' game_log; simpl.
  - intros [= <- <-]. exists []. by rewrite app_nil_r.
  - destruct (process_row elo row k hfa) as [[elo1 e]|err] eqn:Hrow; [|done].
    intros Hrun. destruct (IH _ _ _ _ _ _ Hrun) as (entries & -> & ->).
    exists (e :: entries). rewrite <-app_assoc. split; [done|].
    unfold process_row, rating_of in Hrow.
    destruct (elo !! home_team row); [|done].
    destruct (elo !! away_team row); [|done].
    injection Hrow as <- <-. done.
Qed.

Lemma update_keeps_bystanders df : ∀ elo k hfa elo' game_log t,
  update_elo_ratings elo df k hfa = Ok (elo', game_log) →
  t ∉ teams_of df → elo' !! t = elo !! t.
Proof.
  unfold update_elo_ratings.
  induction df as [|row df IH] using rev_ind; intros elo k hfa elo' game_log t Hrun Ht.
  - simpl in Hrun. injection Hrun as <- <-. done.
  - rewrite update_loop_app in Hrun.
    destruct (update_loop elo df k hfa []) as [[elo1 log1]|err] eqn:Hrun1; [|done].
    assert (Ht1 : (t ∉ teams_of df) ∧ t ≠ home_team row ∧ t ≠ away_team row).
    { unfold teams_of in *. rewrite !fmap_app in Ht. simpl in Ht.
      rewrite elem_of_list_to_set, !elem_of_app, !list_elem_of_singleton in Ht.
      rewrite elem_of_list_to_set, elem_of_app. tauto. }
    destruct Ht1 as (Ht1 & Hnh & Hna).
    rewrite <-(IH elo k hfa elo1 log1 t Hrun1 Ht1).
    simpl in Hrun. unfold process_row, rating_of in Hrun.
    destruct (elo1 !! home_team row); [|done].
    destruct (elo1 !! away_team row); [|done].
    injection Hrun as <- _.
    by rewrite !lookup_insert_ne.
Qed.

(** X6. The log accounts for the whole change of the table: making, in
    the order of the log, the two assignments each record stands for
    (home team to elo_home_after, then away team to elo_away_after) on the
    table the loop started from gives the table it returns. In particular
    a team that plays in no row keeps its rating. *)
Theorem log_replays_to_final_table elo df k hfa :
  Forall (rated elo) df →
  ∃ elo' game_log,
    update_elo_ratings elo df k hfa = Ok (elo', game_log) ∧
    elo' = replay elo game_log ∧
    ∀ t, t ∉ teams_of df → elo' !! t = elo !! t.
Proof.
  intros Hr.
  destruct (update_elo_ratings_rated elo df k hfa Hr)
    as (elo' & game_log & Hrun & _).
  exists elo', game_log. split; [done|]. split.
  - destruct (update_loop_replay df elo k hfa [] elo' game_log Hrun)
      as (entries & Hlog & Helo). simpl in Hlog. by subst entries.
  - intros t. by apply (update_keeps_bystanders df elo k hfa elo' game_log).
Qed.

Lemma log_replays_to_final_table_witness :
  ∃ elo' game_log,
    update_elo_ratings two_teams sample_rows 30 55 = Ok (elo', game_log) ∧
    elo' = replay two_teams game_log ∧
    ∀ t, t ∉ teams_of sample_rows → elo' !! t = two_teams !! t.
Proof.
  apply (log_replays_to_final_table two_teams sample_rows 30 55).
  exact sample_rows_rated.
Defined.

(* --------------------------------------------------------------------- *)
(* From the initial table to the final one                                *)
(* --------------------------------------------------------------------- *)

Lemma initialize_lookup df initial_elo t :
  initialize_elo_ratings df initial_elo !! t =
    if decide (t ∈ teams_of df) then Some initial_elo else None.
Proof.
  unfold initialize_elo_ratings, teams_of. cbv zeta.
  rewrite lookup_gset_to_gmap. by case_decide; simplify_option_eq.
Qed.

Lemma initialize_is_Some df initial_elo t :
  is_Some (initialize_elo_ratings df initial_elo !! t) ↔ t ∈ teams_of df.
Proof.
  rewrite initialize_lookup.
  case_decide as Hin; split; intros Hs.
  - done.
  - by eexists.
  - by destruct Hs.
  - done.
Qed.

Lemma initialize_rates_schedule df initial_elo :
  Forall (rated (initialize_elo_ratings df initial_elo)) df.
Proof.
  apply Forall_forall. intros row Hrow. unfold rated.
  rewrite !initialize_lookup.
  assert (home_team row ∈ teams_of df ∧ away_team row ∈ teams_of df) as [Hh Ha].
  { unfold teams_of. rewrite !elem_of_list_to_set, !elem_of_app.
    split; [left|right]; by apply list_elem_of_fmap_2. }
  rewrite !decide_True by done. eauto.
Qed.

Lemma rating_sum_initial (teams : gset string) initial_elo :
  rating_sum (gset_to_gmap initial_elo teams) = initial_elo * INR (size teams).
Proof.
  induction teams as [|t teams Ht IH] using set_ind_L.
  - rewrite gset_to_gmap_empty, rating_sum_empty, size_empty. simpl. ring.
  - rewrite gset_to_gmap_union_singleton, rating_sum_insert_fresh
      by (by apply lookup_gset_to_gmap_None).
    rewrite IH, size_union, size_singleton, plus_INR by set_solver.
    simpl. ring.
Qed.


(** X8. When no row names one team as both home and away, the ratings
    returned for a schedule started from the initial table add up to the
    initial rating times the number of teams: the mean rating stays at
    the initial rating. *)
Theorem mean_rating_is_kept df initial_elo k hfa :
  Forall (λ row, home_team row ≠ away_team row) df →
  ∃ elo' game_log,
    update_elo_ratings (initialize_elo_ratings df initial_elo) df k hfa
      = Ok (elo', game_log) ∧
    rating_sum elo' = initial_elo * INR (size (teams_of df)) ∧
    size (dom elo') = size (teams_of df).
Proof.
  intros Hne.
  destruct (update_elo_ratings_rated _ df k hfa (initialize_rates_schedule df initial_elo))
    as (elo' & game_log & Hrun & _ & Hkeep & Hsum).
  exists elo', game_log. split; [done|]. split.
  - rewrite (Hsum Hne). apply rating_sum_initial.
  - f_equal. apply set_eq. intros t.
    by rewrite elem_of_dom, Hkeep, initialize_is_Some.
Qed.

Lemma mean_rating_is_kept_witness :
  ∃ elo' game_log,
    update_elo_ratings (initialize_elo_ratings sample_rows 1500) sample_rows 30 55
      = Ok (elo', game_log) ∧
    rating_sum elo' = 1500 * INR (size (teams_of sample_rows)) ∧
    size (dom elo') = size (teams_of sample_rows).
Proof.
  apply (mean_rating_is_kept sample_rows 1500 30 55).
  exact sample_rows_distinct.
Defined.

End EloMore.

(* ===================================================================== *)
(* More about the playoff simulation *)
(* ===================================================================== *)
Module PlayoffMore.
Import Playoffs PlayoffFacts.

(* --------------------------------------------------------------------- *)
(* One game                                                               *)
(* --------------------------------------------------------------------- *)

Lemma game_probability_lt a b hfa n a' b' hfa' n' :
  compute_win_probability a b hfa n < compute_win_probability a' b' hfa' n'
  ↔ rating_diff a b hfa n < rating_diff a' b' hfa' n'.
Proof.
  unfold compute_win_probability, rating_diff.
  rewrite EloMore.inverse_logistic_lt by apply EloFacts.pow10_pos.
  rewrite EloMore.pow10_lt. destruct n, n'; lra.
Qed.

(** X9. Over real arithmetic (the rounding of the doubles is not part of
    this statement: [DoubleFacts.large_gap_saturates] shows a value of the
    code that is exactly 1), the probability computed for the host is
    strictly between 0 and 1 and orders games as the rating difference
    does, where the home advantage counts only away from a neutral site:
    a positive home advantage makes the host's probability strictly
    larger than at a neutral site, and at a neutral site the value passed
    for it is ignored. *)
Theorem home_advantage_counts_off_neutral_site a b hfa :
  (∀ n a' b' hfa' n',
     compute_win_probability a b hfa n < compute_win_probability a' b' hfa' n'
     ↔ rating_diff a b hfa n < rating_diff a' b' hfa' n') ∧
  (0 < hfa → compute_win_probability a b hfa true < compute_win_probability a b hfa false) ∧
  (∀ hfa', compute_win_probability a b hfa true = compute_win_probability a b hfa' true) ∧
  (∀ n, 0 < compute_win_probability a b hfa n < 1).
Proof.
  split; [intros; apply game_probability_lt|]. split; [|split].
  - intros Hh. apply game_probability_lt. unfold rating_diff. lra.
  - reflexivity.
  - intros n. apply game_probability_bounds.
Qed.



(* --------------------------------------------------------------------- *)
(* The rounds of a conference                                             *)
(* --------------------------------------------------------------------- *)

Lemma seeds_name_distinct_teams seeds i j t t' :
  NoDup seeds.*2 → seed_team seeds i = Ok t → seed_team seeds j = Ok t' →
  i ≠ j → t ≠ t'.
Proof.
  intros Hnd Hi Hj Hne ->.
  pose proof (team_to_seed_of _ _ _ Hnd Hi) as H1.
  pose proof (team_to_seed_of _ _ _ Hnd Hj) as H2.
  congruence.
Qed.

(** X11. The wild-card round of a conference whose seeding names
    distinct teams for seeds 1 to 7: seed 1 advances without playing, and
    without its rating being looked up; three games are resolved, 2
    hosting 7, 3 hosting 6 and 4 hosting 5, in this order; the four teams
    returned are seed 1 followed by the three winners, all distinct. *)
Theorem wild_card_round seeds elo hfa w t1 t2 t3 t4 t5 t6 t7 :
  NoDup seeds.*2 →
  seed_team seeds 1 = Ok t1 → seed_team seeds 2 = Ok t2 →
  seed_team seeds 3 = Ok t3 → seed_team seeds 4 = Ok t4 →
  seed_team seeds 5 = Ok t5 → seed_team seeds 6 = Ok t6 →
  seed_team seeds 7 = Ok t7 →
  Forall (λ t, is_Some (elo !! t)) [t2; t3; t4; t5; t6; t7] →
  ∃ g1 g2 g3 w',
    simulate_wild_card seeds elo hfa w
      = (Ok [t1; g_winner g1; g_winner g2; g_winner g3], w') ∧
    advanced w [g1; g2; g3] w' ∧
    game_of false elo (t2, t7) g1 ∧ game_of false elo (t3, t6) g2 ∧
    game_of false elo (t4, t5) g3 ∧
    NoDup [t1; g_winner g1; g_winner g2; g_winner g3].
Proof.
  intros Hnd H1 H2 H3 H4 H5 H6 H7 Hrated.
  rewrite (simulate_wild_card_run seeds elo hfa w t1 t2 t3 t4 t5 t6 t7) by done.
  destruct (play_all_cases false [(t2, t7); (t3, t6); (t4, t5)] elo hfa w)
    as [(gs & w' & Hrun & Hadv & Hgs)
       |(t & gs & w' & h & a & _ & _ & _ & Hat & Ht & Hno)].
  - rewrite (bind_ok _ _ _ _ _ Hrun). unfold ret.
    apply Forall2_cons_inv_l in Hgs as (g1 & gs1 & Hg1 & Hgs & ->).
    apply Forall2_cons_inv_l in Hgs as (g2 & gs2 & Hg2 & Hgs & ->).
    apply Forall2_cons_inv_l in Hgs as (g3 & gs3 & Hg3 & Hgs & ->).
    apply Forall2_nil_inv_l in Hgs as ->.
    exists g1, g2, g3, w'. split; [done|]. split; [done|].
    split; [done|]. split; [done|]. split; [done|].
    assert (D : ∀ i j t t', seed_team seeds i = Ok t → seed_team seeds j = Ok t' →
                i ≠ j → t ≠ t')
      by (intros; by eapply seeds_name_distinct_teams).
    destruct Hg1 as (_ & _ & _ & Hx & _), Hg2 as (_ & _ & _ & Hy & _),
             Hg3 as (_ & _ & _ & Hz & _). simpl in *.
    destruct Hx as [-> | ->], Hy as [-> | ->], Hz as [-> | ->];
      repeat (apply NoDup_cons; split;
              [rewrite ?elem_of_cons, elem_of_nil;
               intros Hin; decompose [or] Hin; try done;
               match goal with
               | E : ?a = ?b |- _ =>
                 first [ eapply (D _ _ a b); [eassumption|eassumption|lia|exact E] ]
               end|]);
      apply NoDup_nil_2.
  - exfalso. rewrite Forall_forall in Hrated.
    assert (t ∈ [t2; t3; t4; t5; t6; t7]) as Hin.
    { destruct gs as [|? [|? [|? ?]]]; simpl in Hat; try done;
        injection Hat as <- <-; destruct Ht as [-> | ->];
        rewrite !elem_of_cons; tauto. }
    specialize (Hrated t Hin). rewrite Hno in Hrated. by apply is_Some_None in Hrated.
Qed.

Lemma wild_card_round_witness :
  ∃ g1 g2 g3 w',
    simulate_wild_card PLAYOFF_SEEDS_AFC (table_without "DEN") 55 (start zeros)
      = (Ok ["DEN"; g_winner g1; g_winner g2; g_winner g3], w') ∧
    advanced (start zeros) [g1; g2; g3] w' ∧
    game_of false (table_without "DEN") ("NE", "LAC") g1 ∧
    game_of false (table_without "DEN") ("JAX", "BUF") g2 ∧
    game_of false (table_without "DEN") ("PIT", "HOU") g3 ∧
    NoDup ["DEN"; g_winner g1; g_winner g2; g_winner g3].
Proof.
  apply (wild_card_round PLAYOFF_SEEDS_AFC (table_without "DEN") 55 (start zeros)
           "DEN" "NE" "JAX" "PIT" "HOU" "BUF" "LAC").
  - exact afc_teams_distinct.
  - reflexivity.
  - reflexivity.
  - reflexivity.
  - reflexivity.
  - reflexivity.
  - reflexivity.
  - reflexivity.
  - apply (bool_decide_unpack _). vm_compute. exact I.
Defined.

Lemma sorted_two ss a b :
  ss ≡ₚ [a; b] → (a < b)%nat → sorted ss = [a; b].
Proof.
  intros Hperm Hlt. unfold sorted.
  apply (Sorted_unique le).
  - apply Sorted_merge_sort. apply _.
  - repeat constructor; lia.
  - by rewrite merge_sort_Permutation.
Qed.

Lemma championship_pairing seeds elo hfa w winners ta tb a b :
  NoDup seeds.*2 →
  seed_team seeds a = Ok ta → seed_team seeds b = Ok tb → (a < b)%nat →
  winners ≡ₚ [ta; tb] →
  simulate_conference_championship winners seeds elo hfa w =
    bind (simulate_game ta tb elo hfa false) (λ xp, ret xp.1) w.
Proof.
  intros Hnd Ha Hb Hlt Hperm.
  pose proof (team_to_seed_of _ _ _ Hnd Ha) as Sa.
  pose proof (team_to_seed_of _ _ _ Hnd Hb) as Sb.
  set (f := λ t, default 0%nat (team_to_seed seeds !! t)).
  assert (Hss : seeds_of_teams (team_to_seed seeds) winners = Ok (f <$> winners)).
  { apply seeds_of_teams_fmap. intros t Ht. rewrite Hperm in Ht.
    repeat (apply elem_of_cons in Ht as [-> | Ht]); eauto.
    by apply elem_of_nil in Ht. }
  assert (Hsorted : sorted (f <$> winners) = [a; b]).
  { apply sorted_two; [|done]. rewrite Hperm. simpl. unfold f. by rewrite Sa, Sb. }
  apply (simulate_conference_championship_run winners seeds elo hfa w
           (f <$> winners) a b ta tb); try done.
  - rewrite Hsorted. simpl. f_equal. lia.
  - rewrite Hsorted. simpl. f_equal. lia.
Qed.

(** X12. In the conference championship of a conference whose seeding
    names distinct teams, given the two survivors in either order, one
    game is resolved, not at a neutral site: the team with the smaller
    seed number hosts the other, and the winner of that game is
    returned. *)
Theorem championship_host_is_better_seed seeds elo hfa w winners ta tb a b :
  NoDup seeds.*2 →
  seed_team seeds a = Ok ta → seed_team seeds b = Ok tb → (a < b)%nat →
  winners ≡ₚ [ta; tb] →
  is_Some (elo !! ta) → is_Some (elo !! tb) →
  ∃ g w',
    simulate_conference_championship winners seeds elo hfa w
      = (Ok (g_winner g), w') ∧
    advanced w [g] w' ∧ game_of false elo (ta, tb) g.
Proof.
  intros Hnd Ha Hb Hlt Hperm Ra Rb.
  rewrite (championship_pairing seeds elo hfa w winners ta tb a b) by done.
  destruct (simulate_game_cases ta tb elo hfa false w)
    as [(t & Ht & Hno & _)|(g & _ & _ & Hrun & Hh & Hx & Hn & Hw)].
  - exfalso. destruct Ht as [-> | ->]; rewrite Hno in *; by eapply is_Some_None.
  - exists g, (after w g). rewrite (bind_ok _ _ _ _ _ Hrun).
    split; [reflexivity|]. split; [apply advanced_after|].
    unfold game_of. simpl. by rewrite Hh, Hx.
Qed.

Lemma championship_host_is_better_seed_witness :
  ∃ g w',
    simulate_conference_championship ["LAC"; "NE"] PLAYOFF_SEEDS_AFC
        level_table 55 (start zeros)
      = (Ok (g_winner g), w') ∧
    advanced (start zeros) [g] w' ∧ game_of false level_table ("NE", "LAC") g.
Proof.
  apply (championship_host_is_better_seed PLAYOFF_SEEDS_AFC level_table 55
           (start zeros) ["LAC"; "NE"] "NE" "LAC" 2 7).
  - exact afc_teams_distinct.
  - reflexivity.
  - reflexivity.
  - lia.
  - apply Permutation_swap.
  - apply (bool_decide_unpack _). vm_compute. exact I.
  - apply (bool_decide_unpack _). vm_compute. exact I.
Defined.

(* --------------------------------------------------------------------- *)
(* The games of a bracket                                                 *)
(* --------------------------------------------------------------------- *)

Ltac above := eexists _, _; split; [eassumption|split; [eassumption|lia]].

Section ConferenceGames.
Variables (seeds : list (nat * string)) (t1 t2 t3 t4 t5 t6 t7 : string).
Hypothesis Hnd : NoDup seeds.*2.
Hypothesis H1 : seed_team seeds 1 = Ok t1.
Hypothesis H2 : seed_team seeds 2 = Ok t2.
Hypothesis H3 : seed_team seeds 3 = Ok t3.
Hypothesis H4 : seed_team seeds 4 = Ok t4.
Hypothesis H5 : seed_team seeds 5 = Ok t5.
Hypothesis H6 : seed_team seeds 6 = Ok t6.
Hypothesis H7 : seed_team seeds 7 = Ok t7.

(** The three rounds of a conference whose seven teams are rated: six
    games, and the lists handed from round to round. *)
Lemma conference_detail elo hfa w :
  Forall (λ t, is_Some (elo !! t)) [t1; t2; t3; t4; t5; t6; t7] →
  ∃ g1 g2 g3 g4 g5 g6 w',
    conference seeds elo hfa w
      = (Ok ([t1; g_winner g1; g_winner g2; g_winner g3],
             [g_winner g4; g_winner g5], g_winner g6), w') ∧
    advanced w [g1; g2; g3; g4; g5; g6] w' ∧
    conference_games seeds elo [g1; g2; g3; g4; g5; g6].
Proof.
  intros Hrated.
  apply Forall_cons in Hrated as [R1 Hrated].
  apply Forall_cons in Hrated as [R2 Hrated].
  apply Forall_cons in Hrated as [R3 Hrated].
  apply Forall_cons in Hrated as [R4 Hrated].
  apply Forall_cons in Hrated as [R5 Hrated].
  apply Forall_cons in Hrated as [R6 Hrated].
  apply Forall_cons in Hrated as [R7 _].
  unfold conference.
  rewrite (bind_run _ _ _ _
    (simulate_wild_card_run seeds elo hfa w t1 t2 t3 t4 t5 t6 t7 H1 H2 H3 H4 H5 H6 H7)).
  rewrite bind_assoc.
  destruct (play_all_cases false [(t2, t7); (t3, t6); (t4, t5)] elo hfa w)
    as [(gs & w1 & Hrun & Hadv & Hgs)
       |(t & gs & w1 & h & a & Hrun & Hadv & Hgs & Hat & Ht & Hno)].
  2:{ exfalso. destruct gs as [|? [|? [|? ?]]]; simpl in Hat; try done;
        injection Hat as <- <-; destruct Ht as [-> | ->]; absurd_rated. }
  rewrite (bind_ok _ _ _ _ _ Hrun), bind_ret_l. clear Hrun.
  apply Forall2_cons_inv_l in Hgs as (g1 & gs1 & Hg1 & Hgs & ->).
  apply Forall2_cons_inv_l in Hgs as (g2 & gs2 & Hg2 & Hgs & ->).
  apply Forall2_cons_inv_l in Hgs as (g3 & gs3 & Hg3 & Hgs & ->).
  apply Forall2_nil_inv_l in Hgs as ->.
  pose proof Hg1 as (_ & _ & _ & Hx & _).
  pose proof Hg2 as (_ & _ & _ & Hy & _).
  pose proof Hg3 as (_ & _ & _ & Hz & _).
  simpl in Hx, Hy, Hz.
  destruct Hx as [Hx | Hx], Hy as [Hy | Hy], Hz as [Hz | Hz].
  all: simpl; rewrite Hx, Hy, Hz.
  all: erewrite bind_run;
         [|eapply simulate_divisional_run;
           [seeds_known|pairing|pairing|pairing|pairing|pairing|pairing|pairing]].
  all: match goal with |- context [bind (play_all false ?games _ _) _ ?w0] =>
         destruct (play_all_cases false games elo hfa w0)
           as [(gs' & w2 & Hrun2 & Hadv2 & Hgs2)
              |(t & gs' & w2 & h & a & Hrun2 & Hadv2 & Hgs2 & Hat & Ht & Hno)]
       end.
  all: try (exfalso; destruct gs' as [|? [|? ?]]; simpl in Hat; try done;
            injection Hat as <- <-; destruct Ht as [-> | ->]; absurd_rated).
  all: rewrite (bind_ok _ _ _ _ _ Hrun2); clear Hrun2.
  all: apply Forall2_cons_inv_l in Hgs2 as (g4 & gs4 & Hg4 & Hgs2 & ->).
  all: apply Forall2_cons_inv_l in Hgs2 as (g5 & gs5 & Hg5 & Hgs2 & ->).
  all: apply Forall2_nil_inv_l in Hgs2 as ->.
  all: pose proof Hg4 as (Hh4 & Ha4 & _ & Hp & _).
  all: pose proof Hg5 as (Hh5 & Ha5 & _ & Hq & _).
  all: simpl in Hh4, Ha4, Hh5, Ha5, Hp, Hq.
  all: destruct Hp as [Hp | Hp], Hq as [Hq | Hq].
  all: simpl; rewrite Hp, Hq.
  all: erewrite bind_run;
         [|eapply simulate_conference_championship_run;
           [seeds_known|pairing|pairing|pairing|pairing]].
  all: rewrite bind_assoc.
  all: match goal with |- context [bind (simulate_game ?h ?a _ _ false) _ ?w0] =>
         destruct (simulate_game_cases h a elo hfa false w0)
           as [(t & Ht3 & Hno3 & Hrun3)|(g6 & Rh & Ra & Hrun3 & Hh6 & Ha6 & Hn6 & Hc)]
       end.
  all: try (exfalso; destruct Ht3 as [-> | ->]; absurd_rated).
  all: rewrite (bind_ok _ _ _ _ _ Hrun3); simpl.
  all: exists g1, g2, g3, g4, g5, g6, (after w2 g6).
  all: split; [rewrite Hx, Hy, Hz, Hp, Hq; destruct Hc as [-> | ->]; reflexivity|].
  all: split; [apply (advanced_trans _ [g1; g2; g3] w1 [g4; g5; g6]); [done|];
               apply (advanced_trans _ [g4; g5] w2 [g6]); [done|];
               apply advanced_after|].
  all: exists t1, t2, t3, t4, t5, t6, t7, g1, g2, g3, g4, g5, g6.
  all: split; [reflexivity|]. all: split; [done|]. all: split; [done|].
  all: split;
         [rewrite Ha4, Hh5, Ha5, Hx, Hy, Hz;
          split; [done|]; split; [done|]; split; [solve_Permutation|];
          split; above
         |rewrite Hh6, Ha6, Hp, Hq;
          split; [unfold game_of; simpl; rewrite Hh6, Ha6, Hn6;
                  (repeat split); try done; by rewrite Hh6, Ha6 in Hc|];
          split; [solve_Permutation|above]].
Qed.
End ConferenceGames.

Lemma afc_rated elo :
  all_rated elo →
  Forall (λ t, is_Some (elo !! t)) ["DEN"; "NE"; "JAX"; "PIT"; "HOU"; "BUF"; "LAC"].
Proof. intros Hall. by apply Forall_app in Hall as [? _]. Qed.

Lemma nfc_rated elo :
  all_rated elo →
  Forall (λ t, is_Some (elo !! t)) ["SEA"; "CHI"; "PHI"; "CAR"; "LA"; "SF"; "GB"].
Proof. intros Hall. by apply Forall_app in Hall as [_ ?]. Qed.

(** One bracket over a table that rates the seeded teams: its thirteen
    games and the dictionary returned. *)
Lemma bracket_detail elo hfa w :
  all_rated elo →
  ∃ a1 a2 a3 a4 a5 a6 n1 n2 n3 n4 n5 n6 sb w',
    simulate_one_bracket elo hfa w =
      (Ok {| divisional := ["DEN"; g_winner a1; g_winner a2; g_winner a3;
                            "SEA"; g_winner n1; g_winner n2; g_winner n3];
             conf_champ := [g_winner a4; g_winner a5; g_winner n4; g_winner n5];
             super_bowl := [g_winner a6; g_winner n6];
             champion := Some (g_winner sb) |}, w') ∧
    advanced w ([a1; a2; a3; a4; a5; a6] ++ [n1; n2; n3; n4; n5; n6] ++ [sb]) w' ∧
    conference_games PLAYOFF_SEEDS_AFC elo [a1; a2; a3; a4; a5; a6] ∧
    conference_games PLAYOFF_SEEDS_NFC elo [n1; n2; n3; n4; n5; n6] ∧
    game_of true elo (g_winner a6, g_winner n6) sb.
Proof.
  intros Hall. rewrite simulate_one_bracket_conferences.
  destruct (conference_detail PLAYOFF_SEEDS_AFC "DEN" "NE" "JAX" "PIT" "HOU" "BUF" "LAC"
              afc_teams_distinct eq_refl eq_refl eq_refl eq_refl eq_refl eq_refl eq_refl
              elo hfa w (afc_rated elo Hall))
    as (a1 & a2 & a3 & a4 & a5 & a6 & w1 & Hrun1 & Hadv1 & Hafc).
  rewrite (bind_ok _ _ _ _ _ Hrun1). simpl.
  destruct (conference_detail PLAYOFF_SEEDS_NFC "SEA" "CHI" "PHI" "CAR" "LA" "SF" "GB"
              nfc_teams_distinct eq_refl eq_refl eq_refl eq_refl eq_refl eq_refl eq_refl
              elo hfa w1 (nfc_rated elo Hall))
    as (n1 & n2 & n3 & n4 & n5 & n6 & w2 & Hrun2 & Hadv2 & Hnfc).
  rewrite (bind_ok _ _ _ _ _ Hrun2). simpl.
  assert (Ra : is_Some (elo !! g_winner a6)).
  { destruct Hafc as (? & ? & ? & ? & ? & ? & ? & ? & ? & ? & ? & ? & g6 & [= _ _ _ _ _ ->]
                      & _ & _ & _ & (_ & _ & _ & Hw & Rh & Rv) & _).
    simpl in Hw, Rh, Rv. by destruct Hw as [-> | ->]. }
  assert (Rn : is_Some (elo !! g_winner n6)).
  { destruct Hnfc as (? & ? & ? & ? & ? & ? & ? & ? & ? & ? & ? & ? & g6 & [= _ _ _ _ _ ->]
                      & _ & _ & _ & (_ & _ & _ & Hw & Rh & Rv) & _).
    simpl in Hw, Rh, Rv. by destruct Hw as [-> | ->]. }
  unfold simulate_super_bowl.
  destruct (simulate_game_cases (g_winner a6) (g_winner n6) elo hfa true w2)
    as [(t & Ht & Hno & _)|(sb & _ & _ & Hrun3 & Hh & Ha & Hn & Hw)].
  { exfalso. destruct Ht as [-> | ->]; absurd_rated. }
  rewrite bind_assoc, (bind_ok _ _ _ _ _ Hrun3). simpl.
  exists a1, a2, a3, a4, a5, a6, n1, n2, n3, n4, n5, n6, sb, (after w2 sb).
  split; [reflexivity|].
  split; [apply (advanced_trans _ [a1; a2; a3; a4; a5; a6] w1
                   [n1; n2; n3; n4; n5; n6; sb]); [exact Hadv1|];
          apply (advanced_trans _ [n1; n2; n3; n4; n5; n6] w2 [sb]);
            [exact Hadv2|apply advanced_after]|].
  split; [done|]. split; [done|].
  unfold game_of. simpl. by rewrite Hh, Ha.
Qed.



(* --------------------------------------------------------------------- *)
(* The frame as a table of frequencies                                    *)
(* --------------------------------------------------------------------- *)

Lemma bind_ok_inv {A B} (m : M A) (f : A → M B) w b w' :
  bind m f w = (Ok b, w') → ∃ a w1, m w = (Ok a, w1) ∧ f a w1 = (Ok b, w').
Proof.
  unfold bind. destruct (m w) as [[a|e] w1]; [|discriminate]. eauto.
Qed.

(** The brackets collected by the loop are those of its calls of
    [simulate_one_bracket], in order. *)
Lemma trials_origin elo hfa n : ∀ counts bs w c bs2 w',
  trials n elo hfa counts bs w = (Ok (c, bs2), w') →
  ∃ bs', bs2 = bs ++ bs' ∧ bracket_run elo hfa w bs' w'.
Proof.
  induction n as [|n IH]; intros counts bs w c bs2 w' Hrun; simpl in Hrun.
  - injection Hrun as <- <- <-. exists []. by rewrite app_nil_r.
  - apply bind_ok_inv in Hrun as (b & w1 & Hb & Hrest).
    apply IH in Hrest as (bs' & -> & Hbs).
    exists (b :: bs'). rewrite <-app_assoc. split; [done|]. simpl. eauto.
Qed.

Lemma run_trials_origin elo hfa n w rows bs w' :
  run_trials elo hfa n w = (Ok (rows, bs), w') → bracket_run elo hfa w bs w'.
Proof.
  unfold run_trials. intros Hrun.
  apply bind_ok_inv in Hrun as ([c bs0] & w1 & Htr & Hrest).
  apply trials_origin in Htr as (bs' & -> & Hbs). simpl in Hbs.
  unfold bind, lift in Hrest.
  destruct (sort_values (prob_data n c)); [|discriminate].
  unfold ret in Hrest. by injection Hrest as <- <- <-.
Qed.

(** Every bracket of a run over rated teams lists the two top seeds in
    the divisional round, four divisional winners and two conference
    champions. *)
Lemma bracket_run_slots elo hfa : all_rated elo → ∀ bs w w',
  bracket_run elo hfa w bs w' →
  Forall (λ b, "DEN" ∈ divisional b ∧ "SEA" ∈ divisional b ∧
               length (divisional b) = 8%nat ∧
               length (conf_champ b) = 4%nat ∧ length (super_bowl b) = 2%nat) bs.
Proof.
  intros Hall. induction bs as [|b bs IH]; intros w w' Hrun; [constructor|].
  destruct Hrun as (w1 & Hb & Hrest). constructor; [|by eapply IH].
  destruct (bracket_detail elo hfa w Hall)
    as (a1 & a2 & a3 & a4 & a5 & a6 & n1 & n2 & n3 & n4 & n5 & n6 & sb & w2
        & Hrun & _).
  rewrite Hrun in Hb. injection Hb as <- <-. simpl.
  split; [apply list_elem_of_here|].
  split; [do 4 apply list_elem_of_further; apply list_elem_of_here|]. done.
Qed.

Lemma submseteq_keeps_NoDup (l k : list string) : l ⊆+ k → NoDup k → NoDup l.
Proof.
  intros Hsub Hnd. apply submseteq_Permutation in Hsub as (k' & Hk).
  rewrite Hk in Hnd. by apply NoDup_app in Hnd as [? _].
Qed.

Lemma good_bracket_NoDup b :
  good_bracket b →
  NoDup (divisional b) ∧ NoDup (conf_champ b) ∧ NoDup (super_bowl b).
Proof.
  intros (Hd & _ & Hcc & Hsb & _).
  assert (NoDup (divisional b))
    by (eapply submseteq_keeps_NoDup; [exact Hd|exact seeded_teams_distinct]).
  assert (NoDup (conf_champ b)) by (by eapply submseteq_keeps_NoDup).
  assert (NoDup (super_bowl b)) by (by eapply submseteq_keeps_NoDup).
  done.
Qed.

Lemma occ_NoDup t l : NoDup l → occ t l = if decide (t ∈ l) then 1%nat else 0%nat.
Proof.
  induction 1 as [|x l Hx _ IH]; [done|].
  rewrite occ_cons, IH.
  destruct (decide (t = x)), (decide (t ∈ l)), (decide (t ∈ x :: l)) as [Hin|Hnin];
    subst; try done; exfalso; rewrite ?elem_of_cons in *; tauto.
Qed.

Lemma reached_snoc round t bs b :
  reached round t (bs ++ [b])
  = (reached round t bs + if decide (t ∈ round b) then 1 else 0)%nat.
Proof.
  unfold reached. rewrite filter_app, length_app, filter_cons, filter_nil.
  by destruct (decide (t ∈ round b)).
Qed.

Lemma won_snoc t bs b :
  won t (bs ++ [b])
  = (won t bs + if decide (champion b = Some t) then 1 else 0)%nat.
Proof.
  unfold won. rewrite filter_app, length_app, filter_cons, filter_nil.
  by destruct (decide (champion b = Some t)).
Qed.

Lemma reached_le round t bs : (reached round t bs ≤ length bs)%nat.
Proof. apply length_filter. Qed.

Lemma won_le t bs : (won t bs ≤ length bs)%nat.
Proof. apply length_filter. Qed.

Lemma reached_all round t bs :
  Forall (λ b, t ∈ round b) bs → reached round t bs = length bs.
Proof.
  unfold reached. induction 1 as [|b bs Hb _ IH]; [done|].
  rewrite filter_cons, decide_True by done. simpl. by rewrite IH.
Qed.

(** The counters of a team after the brackets of a run: in how many of
    them the team is in each list. *)
Lemma counts_tally bs t :
  Forall good_bracket bs →
  tally_of (foldl update_counts ∅ bs) t
  = {| n_divisional := reached divisional t bs;
       n_conf_champ := reached conf_champ t bs;
       n_super_bowl := reached super_bowl t bs;
       n_champion := won t bs |}.
Proof.
  induction bs as [|b bs IH] using rev_ind; intros Hgood.
  - simpl. by rewrite tally_of_empty.
  - apply Forall_app in Hgood as [Hgood Hb]. apply Forall_inv in Hb.
    rewrite foldl_app. simpl.
    destruct (good_bracket_champion b Hb) as (c0 & Hc & Hne & _).
    destruct (good_bracket_NoDup b Hb) as (N1 & N2 & N3).
    rewrite (update_counts_tally _ b c0 t Hc Hne), (IH Hgood). simpl.
    rewrite !reached_snoc, won_snoc, !occ_NoDup, occ_cons, occ_nil, Hc by done.
    f_equal; try lia.
    destruct (decide (t = c0)) as [->|Hd].
    + rewrite decide_True by done. lia.
    + rewrite decide_False by congruence. lia.
Qed.

Lemma frame_rows elo hfa n w :
  all_rated elo → (0 < n)%nat →
  ∃ rows bs w',
    run_trials elo hfa n w = (Ok (rows, bs), w') ∧
    run_simulations elo hfa n w = (Ok rows, w') ∧
    bracket_run elo hfa w bs w' ∧ length bs = n ∧ Forall good_bracket bs ∧
    rows ≡ₚ prob_data n (foldl update_counts ∅ bs).
Proof.
  intros Hall Hn.
  destruct (run_trials_rated elo hfa n w Hall)
    as (rows & bs & gs & w' & Hrun & _ & _ & _ & Hlen & Hgood & Hperm); [lia|].
  exists rows, bs, w'. split; [done|].
  split; [by eapply run_simulations_of_trials|].
  split; [by eapply run_trials_origin|]. done.
Qed.

(** X14. For N > 0 trials over a table that rates the seeded teams, the
    frame returned is the table of frequencies of the N brackets
    simulated one after the other: in the row of a team,
    pct_make_divisional, pct_make_conf_champ and pct_make_superbowl are
    the numbers of brackets that list the team in that round, and
    pct_win_superbowl the number of brackets the team is champion of,
    each divided by N. *)
Theorem frame_is_frequency_table elo hfa n w :
  all_rated elo → (0 < n)%nat →
  ∃ rows bs w',
    run_simulations elo hfa n w = (Ok rows, w') ∧
    bracket_run elo hfa w bs w' ∧ length bs = n ∧
    ∀ row, row ∈ rows →
      pct_make_divisional row = INR (reached divisional (team row) bs) / INR n ∧
      pct_make_conf_champ row = INR (reached conf_champ (team row) bs) / INR n ∧
      pct_make_superbowl row = INR (reached super_bowl (team row) bs) / INR n ∧
      pct_win_superbowl row = INR (won (team row) bs) / INR n.
Proof.
  intros Hall Hn.
  destruct (frame_rows elo hfa n w Hall Hn)
    as (rows & bs & w' & _ & Hrun & Hbs & Hlen & Hgood & Hperm).
  exists rows, bs, w'. split; [done|]. split; [done|]. split; [done|].
  intros row Hrow. rewrite Hperm in Hrow.
  apply prob_data_row in Hrow as (t & c & Hc & ->).
  pose proof (counts_tally bs t Hgood) as Ht.
  rewrite (tally_of_lookup _ _ _ Hc) in Ht. subst c. simpl. done.
Qed.

Lemma frame_is_frequency_table_witness :
  ∃ rows bs w',
    run_simulations level_table 55 3 (start zeros) = (Ok rows, w') ∧
    bracket_run level_table 55 (start zeros) bs w' ∧ length bs = 3%nat ∧
    ∀ row, row ∈ rows →
      pct_make_divisional row = INR (reached divisional (team row) bs) / INR 3 ∧
      pct_make_conf_champ row = INR (reached conf_champ (team row) bs) / INR 3 ∧
      pct_make_superbowl row = INR (reached super_bowl (team row) bs) / INR 3 ∧
      pct_win_superbowl row = INR (won (team row) bs) / INR 3.
Proof.
  apply (frame_is_frequency_table level_table 55 3 (start zeros)).
  - exact level_table_rated.
  - lia.
Defined.

Lemma share_bounds k n : (0 < n)%nat → (k ≤ n)%nat → 0 <= INR k / INR n <= 1.
Proof.
  intros Hn Hk.
  assert (0 < INR n) by (apply lt_0_INR; lia).
  assert (0 <= INR k) by apply pos_INR.
  assert (INR k <= INR n) by (by apply le_INR).
  split.
  - apply Rmult_le_pos; [done|]. by apply Rlt_le, Rinv_0_lt_compat.
  - apply (Rmult_le_reg_r (INR n)); [done|].
    unfold Rdiv. rewrite Rmult_assoc, Rinv_l by lra. lra.
Qed.

(** X15. For N > 0 trials over a table that rates the seeded teams,
    every value of the frame lies between 0 and 1, and the two top seeds,
    which sit out the wild-card round, each have a row whose
    pct_make_divisional is exactly 1. *)
Theorem top_seeds_always_reach_divisional elo hfa n w :
  all_rated elo → (0 < n)%nat →
  ∃ rows w',
    run_simulations elo hfa n w = (Ok rows, w') ∧
    (∀ t, t = "DEN"%string ∨ t = "SEA"%string →
       ∃ row, row ∈ rows ∧ team row = t ∧ pct_make_divisional row = 1) ∧
    (∀ row, row ∈ rows →
       0 <= pct_make_divisional row <= 1 ∧ 0 <= pct_make_conf_champ row <= 1 ∧
       0 <= pct_make_superbowl row <= 1 ∧ 0 <= pct_win_superbowl row <= 1).
Proof.
  intros Hall Hn.
  destruct (frame_rows elo hfa n w Hall Hn)
    as (rows & bs & w' & _ & Hrun & Hbs & Hlen & Hgood & Hperm).
  pose proof (bracket_run_slots elo hfa Hall bs w w' Hbs) as Hslots.
  exists rows, w'. split; [done|]. split.
  - intros t Ht.
    assert (Hevery : Forall (λ b, t ∈ divisional b) bs).
    { eapply Forall_impl; [exact Hslots|]. intros b (? & ? & _).
      by destruct Ht as [-> | ->]. }
    destruct (counts_invariant bs Hgood) as (_ & _ & Hkeys & _).
    destruct (proj2 (Hkeys t)) as [c Hc].
    { destruct bs as [|b bs]; [simpl in Hlen; lia|].
      exists b. split; [apply list_elem_of_here|]. by apply Forall_inv in Hevery. }
    exists (row_of n (t, c)). split; [|split; [done|]].
    + rewrite Hperm. unfold prob_data. apply list_elem_of_fmap.
      exists (t, c). split; [done|]. by apply elem_of_map_to_list.
    + pose proof (counts_tally bs t Hgood) as Ht'.
      rewrite (tally_of_lookup _ _ _ Hc) in Ht'. subst c. simpl.
      rewrite (reached_all _ _ _ Hevery), Hlen.
      apply Rdiv_diag, not_0_INR. lia.
  - intros row Hrow. rewrite Hperm in Hrow.
    apply prob_data_row in Hrow as (t & c & Hc & ->).
    pose proof (counts_tally bs t Hgood) as Ht.
    rewrite (tally_of_lookup _ _ _ Hc) in Ht. subst c. simpl.
    pose proof (reached_le divisional t bs). pose proof (reached_le conf_champ t bs).
    pose proof (reached_le super_bowl t bs). pose proof (won_le t bs).
    repeat split; apply share_bounds; lia.
Qed.

Lemma top_seeds_always_reach_divisional_witness :
  ∃ rows w',
    run_simulations level_table 55 3 (start zeros) = (Ok rows, w') ∧
    (∀ t, t = "DEN"%string ∨ t = "SEA"%string →
       ∃ row, row ∈ rows ∧ team row = t ∧ pct_make_divisional row = 1) ∧
    (∀ row, row ∈ rows →
       0 <= pct_make_divisional row <= 1 ∧ 0 <= pct_make_conf_champ row <= 1 ∧
       0 <= pct_make_superbowl row <= 1 ∧ 0 <= pct_win_superbowl row <= 1).
Proof.
  apply (top_seeds_always_reach_divisional level_table 55 3 (start zeros)).
  - exact level_table_rated.
  - lia.
Defined.

(* --------------------------------------------------------------------- *)
(* The sums of the columns                                                *)
(* --------------------------------------------------------------------- *)

Section Total.
Variable f : tally → nat.
Hypothesis f_zero : f zero_tally = 0%nat.

Lemma total_insert counts t c :
  (total f (<[t:=c]> counts) + f (tally_of counts t) = total f counts + f c)%nat.
Proof.
  unfold total, tally_of.
  destruct (counts !! t) as [c0|] eqn:Hc; simpl.
  - rewrite <-insert_delete_eq.
    rewrite (map_to_list_insert (delete t counts)) by apply lookup_delete_eq.
    rewrite <-(map_to_list_delete counts t c0 Hc). simpl. lia.
  - rewrite (map_to_list_insert counts) by done. simpl. lia.
Qed.

Lemma total_empty : total f ∅ = 0%nat.
Proof. unfold total. by rewrite map_to_list_empty. Qed.

Variable g : tally → tally.
Local Abbreviation bump :=
  (λ (counts : gmap string tally) (t : string), <[t := g (tally_of counts t)]> counts).

Lemma total_bump_kept counts t :
  (∀ c, f (g c) = f c) →
  total f (<[t := g (tally_of counts t)]> counts) = total f counts.
Proof.
  intros Hg. pose proof (total_insert counts t (g (tally_of counts t))) as H.
  rewrite Hg in H. lia.
Qed.

Lemma foldl_bump_kept l : ∀ counts,
  (∀ c, f (g c) = f c) → total f (foldl bump counts l) = total f counts.
Proof.
  induction l as [|x l IH]; intros counts Hg; simpl; [done|].
  rewrite IH by done.
  pose proof (total_insert counts x (g (tally_of counts x))) as H.
  rewrite Hg in H. lia.
Qed.

Lemma foldl_bump_counted l : ∀ counts,
  (∀ c, f (g c) = S (f c)) →
  total f (foldl bump counts l) = (total f counts + length l)%nat.
Proof.
  induction l as [|x l IH]; intros counts Hg; simpl; [lia|].
  rewrite IH by done.
  pose proof (total_insert counts x (g (tally_of counts x))) as H.
  rewrite Hg in H. lia.
Qed.
End Total.

(** One bracket adds the lengths of its lists to the totals. *)
Lemma update_counts_totals counts b c0 :
  champion b = Some c0 → c0 ≠ ""%string →
  total n_divisional (update_counts counts b)
    = (total n_divisional counts + length (divisional b))%nat ∧
  total n_conf_champ (update_counts counts b)
    = (total n_conf_champ counts + length (conf_champ b))%nat ∧
  total n_super_bowl (update_counts counts b)
    = (total n_super_bowl counts + length (super_bowl b))%nat.
Proof.
  intros Hc Hne. unfold update_counts. rewrite Hc, (truthy_named c0 Hne). simpl.
  unfold bump_champion.
  repeat split.
  - rewrite (total_bump_kept n_divisional eq_refl inc_champion) by done.
    rewrite (foldl_bump_kept n_divisional eq_refl inc_super_bowl) by done.
    rewrite (foldl_bump_kept n_divisional eq_refl inc_conf_champ) by done.
    by rewrite (foldl_bump_counted n_divisional eq_refl inc_divisional).
  - rewrite (total_bump_kept n_conf_champ eq_refl inc_champion) by done.
    rewrite (foldl_bump_kept n_conf_champ eq_refl inc_super_bowl) by done.
    rewrite (foldl_bump_counted n_conf_champ eq_refl inc_conf_champ) by done.
    by rewrite (foldl_bump_kept n_conf_champ eq_refl inc_divisional).
  - rewrite (total_bump_kept n_super_bowl eq_refl inc_champion) by done.
    rewrite (foldl_bump_counted n_super_bowl eq_refl inc_super_bowl) by done.
    rewrite (foldl_bump_kept n_super_bowl eq_refl inc_conf_champ) by done.
    by rewrite (foldl_bump_kept n_super_bowl eq_refl inc_divisional).
Qed.

Lemma totals_of_run bs :
  Forall good_bracket bs →
  Forall (λ b, length (divisional b) = 8%nat ∧ length (conf_champ b) = 4%nat ∧
               length (super_bowl b) = 2%nat) bs →
  let counts := foldl update_counts ∅ bs in
  total n_divisional counts = (8 * length bs)%nat ∧
  total n_conf_champ counts = (4 * length bs)%nat ∧
  total n_super_bowl counts = (2 * length bs)%nat.
Proof.
  induction bs as [|b bs IH] using rev_ind; intros Hgood Hslots counts.
  - subst counts. simpl. by rewrite !total_empty.
  - apply Forall_app in Hgood as [Hgood Hb]. apply Forall_inv in Hb.
    apply Forall_app in Hslots as [Hslots Hs]. apply Forall_inv in Hs.
    destruct (IH Hgood Hslots) as (T1 & T2 & T3).
    destruct Hs as (L1 & L2 & L3).
    destruct (good_bracket_champion b Hb) as (c0 & Hc & Hne & _).
    subst counts. rewrite foldl_app. simpl.
    destruct (update_counts_totals (foldl update_counts ∅ bs) b c0 Hc Hne)
      as (U1 & U2 & U3).
    rewrite U1, U2, U3, T1, T2, T3, L1, L2, L3, length_app. simpl. lia.
Qed.

Lemma sum_col_Permutation f rows rows' :
  rows ≡ₚ rows' → sum_col f rows = sum_col f rows'.
Proof. induction 1; simpl in *; lra. Qed.

Lemma sum_col_rows (f : prob_row → R) (g : tally → nat) n
    (items : list (string * tally)) :
  (∀ item, f (row_of n item) = INR (g item.2) / INR n) →
  sum_col f (row_of n <$> items)
  = INR (sum_list_with (λ item, g item.2) items) / INR n.
Proof.
  intros Hf. induction items as [|item items IH].
  - simpl. unfold Rdiv. ring.
  - rewrite fmap_cons.
    change (sum_col f (row_of n item :: (row_of n <$> items)))
      with (f (row_of n item) + sum_col f (row_of n <$> items)).
    rewrite IH, Hf. simpl. rewrite plus_INR. unfold Rdiv. ring.
Qed.

Lemma slots_share k n : (0 < n)%nat → INR (k * n) / INR n = INR k.
Proof.
  intros Hn. rewrite mult_INR. field. apply not_0_INR. lia.
Qed.

(** X16. For N > 0 trials over a table that rates the seeded teams, the
    columns of the frame add up to the number of places in each round:
    pct_make_divisional to 8, pct_make_conf_champ to 4 and
    pct_make_superbowl to 2. *)
Theorem columns_sum_to_places elo hfa n w :
  all_rated elo → (0 < n)%nat →
  ∃ rows w',
    run_simulations elo hfa n w = (Ok rows, w') ∧
    sum_col pct_make_divisional rows = 8 ∧
    sum_col pct_make_conf_champ rows = 4 ∧
    sum_col pct_make_superbowl rows = 2.
Proof.
  intros Hall Hn.
  destruct (frame_rows elo hfa n w Hall Hn)
    as (rows & bs & w' & _ & Hrun & Hbs & Hlen & Hgood & Hperm).
  pose proof (bracket_run_slots elo hfa Hall bs w w' Hbs) as Hslots.
  destruct (totals_of_run bs Hgood) as (T1 & T2 & T3).
  { eapply Forall_impl; [exact Hslots|]. by intros b (_ & _ & ? & ? & ?). }
  exists rows, w'. split; [done|].
  rewrite !(sum_col_Permutation _ _ _ Hperm). unfold prob_data.
  rewrite (sum_col_rows pct_make_divisional n_divisional) by done.
  rewrite (sum_col_rows pct_make_conf_champ n_conf_champ) by done.
  rewrite (sum_col_rows pct_make_superbowl n_super_bowl) by done.
  fold (total n_divisional (foldl update_counts ∅ bs)).
  fold (total n_conf_champ (foldl update_counts ∅ bs)).
  fold (total n_super_bowl (foldl update_counts ∅ bs)).
  rewrite T1, T2, T3, Hlen.
  split; [|split].
  - rewrite (slots_share 8 n Hn). simpl. lra.
  - rewrite (slots_share 4 n Hn). simpl. lra.
  - rewrite (slots_share 2 n Hn). simpl. lra.
Qed.

Lemma columns_sum_to_places_witness :
  ∃ rows w',
    run_simulations level_table 55 3 (start zeros) = (Ok rows, w') ∧
    sum_col pct_make_divisional rows = 8 ∧
    sum_col pct_make_conf_champ rows = 4 ∧
    sum_col pct_make_superbowl rows = 2.
Proof.
  apply (columns_sum_to_places level_table 55 3 (start zeros)).
  - exact level_table_rated.
  - lia.
Defined.

(* --------------------------------------------------------------------- *)
(* What every computation of the simulation inherits from one game        *)
(* --------------------------------------------------------------------- *)

Section Closure.
Variable Q : ∀ A, M A → Prop.
Hypothesis Q_ret : ∀ A (a : A), Q A (ret a).
Hypothesis Q_lift : ∀ A (r : result A), Q A (lift r).
Hypothesis Q_bind : ∀ A B (m : M A) (f : A → M B),
  Q A m → (∀ a, Q B (f a)) → Q B (bind m f).
Variables (elo : gmap string R) (hfa : R).
Hypothesis Q_game : ∀ h a n, Q _ (simulate_game h a elo hfa n).

Lemma closed_wild_card_loop seeds ms : ∀ winners,
  Q _ (wild_card_loop ms seeds elo hfa winners).
Proof.
  induction ms as [|[sh sa] ms IH]; intros winners; simpl; [apply Q_ret|].
  apply Q_bind; [apply Q_lift|intros th].
  apply Q_bind; [apply Q_lift|intros ta].
  apply Q_bind; [apply Q_game|intros [x p]]. apply IH.
Qed.

Lemma closed_simulate_wild_card seeds :
  Q _ (simulate_wild_card seeds elo hfa).
Proof.
  unfold simulate_wild_card.
  apply Q_bind; [apply Q_lift|intros s1]. apply closed_wild_card_loop.
Qed.

Lemma closed_simulate_divisional winners seeds :
  Q _ (simulate_divisional winners seeds elo hfa).
Proof.
  unfold simulate_divisional.
  apply Q_bind; [apply Q_lift|intros ss]. cbv zeta.
  apply Q_bind; [apply Q_lift|intros s1].
  apply Q_bind; [apply Q_lift|intros lo].
  apply Q_bind; [apply Q_lift|intros tlo].
  apply Q_bind; [apply Q_lift|intros hi].
  apply Q_bind; [apply Q_lift|intros lw].
  apply Q_bind; [apply Q_game|intros [x p]].
  apply Q_bind; [apply Q_lift|intros thi].
  apply Q_bind; [apply Q_lift|intros tlw].
  apply Q_bind; [apply Q_game|intros [y q]]. apply Q_ret.
Qed.

Lemma closed_simulate_conference_championship winners seeds :
  Q _ (simulate_conference_championship winners seeds elo hfa).
Proof.
  unfold simulate_conference_championship.
  apply Q_bind; [apply Q_lift|intros ss]. cbv zeta.
  apply Q_bind; [apply Q_lift|intros hi].
  apply Q_bind; [apply Q_lift|intros lw].
  apply Q_bind; [apply Q_lift|intros thi].
  apply Q_bind; [apply Q_lift|intros tlw].
  apply Q_bind; [apply Q_game|intros [x p]]. apply Q_ret.
Qed.

Lemma closed_simulate_super_bowl afc nfc :
  Q _ (simulate_super_bowl afc nfc elo hfa).
Proof.
  unfold simulate_super_bowl.
  apply Q_bind; [apply Q_game|intros [x p]]. apply Q_ret.
Qed.

Lemma closed_simulate_one_bracket : Q _ (simulate_one_bracket elo hfa).
Proof.
  unfold simulate_one_bracket. cbv zeta.
  apply Q_bind; [apply closed_simulate_wild_card|intros awc].
  apply Q_bind; [apply closed_simulate_divisional|intros adv].
  apply Q_bind; [apply closed_simulate_conference_championship|intros ach].
  apply Q_bind; [apply closed_simulate_wild_card|intros nwc].
  apply Q_bind; [apply closed_simulate_divisional|intros ndv].
  apply Q_bind; [apply closed_simulate_conference_championship|intros nch].
  apply Q_bind; [apply closed_simulate_super_bowl|intros champ]. apply Q_ret.
Qed.

Lemma closed_trials n : ∀ counts bs, Q _ (trials n elo hfa counts bs).
Proof.
  induction n as [|n IH]; intros counts bs; simpl; [apply Q_ret|].
  apply Q_bind; [apply closed_simulate_one_bracket|intros b]. apply IH.
Qed.

Lemma closed_run_simulations n : Q _ (run_simulations elo hfa n).
Proof.
  unfold run_simulations, run_trials.
  apply Q_bind; [|intros [rows bs]; apply Q_ret].
  apply Q_bind; [apply closed_trials|intros [counts bs]].
  apply Q_bind; [apply Q_lift|intros rows]. apply Q_ret.
Qed.
End Closure.

(* --------------------------------------------------------------------- *)
(* The games and the stream of variates                                   *)
(* --------------------------------------------------------------------- *)

Lemma keeps_bind P {A B} (m : M A) (f : A → M B) :
  keeps P m → (∀ a, keeps P (f a)) → keeps P (bind m f).
Proof.
  intros Hm Hf w Hw. unfold bind. specialize (Hm w Hw).
  destruct (m w) as [[a|e] w1]; simpl in *; [by apply Hf|done].
Qed.

Lemma follows_stream_game elo hfa e h a n :
  keeps (follows_stream elo hfa e) (simulate_game h a elo hfa n).
Proof.
  intros w (Hnp & Hlen & Hall).
  destruct (elo !! h) as [eh|] eqn:Hh;
    [|rewrite (simulate_game_no_home _ _ _ _ _ _ Hh); done].
  destruct (elo !! a) as [ea|] eqn:Ha.
  2:{ unfold simulate_game, rating_of. rewrite Hh, Ha. done. }
  rewrite (simulate_game_rated _ _ _ _ _ _ eh ea Hh Ha). simpl.
  unfold follows_stream, after. simpl.
  split; [done|]. split; [rewrite length_app; simpl; lia|].
  intros i g Hi. apply lookup_app_Some in Hi as [Hi|[Hge Hi]]; [by apply Hall|].
  apply list_lookup_singleton_Some in Hi as [Hi <-].
  assert (i = drawn w) as -> by lia. clear Hi Hge.
  unfold by_the_book, play. simpl. rewrite Hnp.
  split; [done|]. split; [by exists eh, ea|].
  destruct (Rlt_dec _ _); split; intros; try done; lra.
Qed.

Lemma follows_stream_run elo hfa n e :
  keeps (follows_stream elo hfa e) (run_simulations elo hfa n).
Proof.
  apply (closed_run_simulations (λ A m, keeps (follows_stream elo hfa e) m)).
  - by intros A a w Hw.
  - by intros A r w Hw.
  - intros A B m f. apply keeps_bind.
  - intros h a n1. apply follows_stream_game.
Qed.

(** X17. Whatever the table and the number of trials, and whether the
    run returns a frame or raises, the games resolved by a run started on
    a fresh generator follow its stream: as many games as variates drawn,
    the i-th game resolved from the i-th variate, between two rated
    teams, with the probability computed from their ratings, won by the
    host exactly when the variate is below that probability; the stream
    itself is left as it was. *)
Theorem games_follow_the_stream elo hfa n e :
  follows_stream elo hfa e (run_simulations elo hfa n (start e)).2.
Proof.
  apply follows_stream_run.
  split; [done|]. split; [done|]. intros i g Hi. simpl in Hi.
  by rewrite lookup_nil in Hi.
Qed.

(* --------------------------------------------------------------------- *)
(* The frame depends on the variates drawn only                           *)
(* --------------------------------------------------------------------- *)

Lemma draws_only_ret {A} (a : A) : draws_only (ret a).
Proof. split; [by intros w|]. by intros k w1 w2 Hs _. Qed.

Lemma draws_only_lift {A} (r : result A) : draws_only (lift r).
Proof. split; [by intros w|]. by intros k w1 w2 Hs _. Qed.

Lemma draws_only_bind {A B} (m : M A) (f : A → M B) :
  draws_only m → (∀ a, draws_only (f a)) → draws_only (bind m f).
Proof.
  intros [Hm1 Hm2] Hf. split.
  - intros w. unfold bind. destruct (Hm1 w) as [Hd Hn].
    destruct (m w) as [[a|e] w1]; simpl in *; [|done].
    destruct (Hf a) as [Hf1 _]. destruct (Hf1 w1) as [Hd' Hn'].
    split; [lia|congruence].
  - intros k w1 w2 Hs Hk. unfold bind in *.
    specialize (Hm2 k w1 w2 Hs).
    destruct (m w1) as [[a|e] w1'] eqn:E1; simpl in *.
    + destruct (Hf a) as [Hf1 Hf2]. destruct (Hf1 w1') as [Hd' _].
      destruct Hm2 as [Hr Hs']; [lia|].
      destruct (m w2) as [r2 w2']; simpl in *; subst r2.
      by apply Hf2.
    + destruct Hm2 as [Hr Hs']; [done|].
      destruct (m w2) as [r2 w2']; simpl in *; subst r2. done.
Qed.

Lemma draws_only_game h a elo hfa n : draws_only (simulate_game h a elo hfa n).
Proof.
  destruct (elo !! h) as [eh|] eqn:Hh.
  2:{ split.
      - intros w. by rewrite (simulate_game_no_home _ _ _ _ _ _ Hh).
      - intros k w1 w2 Hs _. by rewrite !(simulate_game_no_home _ _ _ _ _ _ Hh). }
  destruct (elo !! a) as [ea|] eqn:Ha.
  2:{ split.
      - intros w. unfold simulate_game, rating_of. by rewrite Hh, Ha.
      - intros k w1 w2 Hs _. unfold simulate_game, rating_of. by rewrite Hh, Ha. }
  split.
  - intros w. rewrite (simulate_game_rated _ _ _ _ _ _ eh ea Hh Ha). simpl.
    split; [lia|done].
  - intros k w1 w2 [Hd Hagree] Hk.
    rewrite !(simulate_game_rated _ _ _ _ _ _ eh ea Hh Ha) in *. simpl in *.
    assert (Hu : np_random w1 (drawn w1) = np_random w2 (drawn w2)).
    { rewrite <-Hd. apply Hagree. lia. }
    unfold play. simpl. rewrite Hu. split; [done|].
    split; simpl; [lia|]. intros i Hi. apply Hagree. lia.
Qed.

Lemma draws_only_run elo hfa n : draws_only (run_simulations elo hfa n).
Proof.
  apply (closed_run_simulations (λ A m, draws_only m)).
  - intros A a. apply draws_only_ret.
  - intros A r. apply draws_only_lift.
  - intros A B m f. apply draws_only_bind.
  - intros h a n1. apply draws_only_game.
Qed.

(** A run of N trials draws at most 13 N variates. *)
Lemma run_draws_at_most elo hfa n w :
  (drawn (run_simulations elo hfa n w).2 ≤ drawn w + 13 * n)%nat.
Proof.
  destruct n as [|n].
  - unfold run_simulations, run_trials, bind, lift, ret. simpl.
    destruct (sort_values _); simpl; lia.
  - destruct (decide (Forall (λ t, is_Some (elo !! t)) seeded_teams)) as [Hall|Hnot].
    + destruct (run_trials_rated elo hfa (S n) w Hall)
        as (rows & bs & gs & w' & Hrun & (_ & Hd & _) & Hlen & _); [lia|].
      rewrite (run_simulations_of_trials _ _ _ _ _ _ _ Hrun). simpl. lia.
    + destruct (trials_unrated n elo hfa ∅ [] w Hnot)
        as (t & gs & w' & Hrun & (_ & Hd & _) & Hlen & _).
      rewrite (run_simulations_raise _ _ _ _ _ _ Hrun). simpl. lia.
Qed.

(** X18. What a run of N trials returns, frame or exception, depends on
    the generator through its next 13 N variates only: two worlds that
    have drawn as many variates and whose streams agree on the 13 N that
    follow give the same result, whatever the streams hold elsewhere and
    whatever was played before. *)
Theorem frame_depends_on_next_variates elo hfa n w1 w2 :
  drawn w1 = drawn w2 →
  (∀ i, (drawn w1 ≤ i < drawn w1 + 13 * n)%nat → np_random w1 i = np_random w2 i) →
  (run_simulations elo hfa n w1).1 = (run_simulations elo hfa n w2).1.
Proof.
  intros Hd Hagree.
  destruct (draws_only_run elo hfa n) as [_ Hlocal].
  apply (Hlocal (drawn w1 + 13 * n)%nat w1 w2); [done|].
  apply run_draws_at_most.
Qed.

Lemma frame_depends_on_next_variates_witness :
  (run_simulations level_table 55 1 (start zeros)).1
  = (run_simulations level_table 55 1
       (start (λ i, if (i <? 13)%nat then 0 else 1))).1.
Proof.
  apply (frame_depends_on_next_variates level_table 55 1 (start zeros)
           (start (λ i, if (i <? 13)%nat then 0 else 1))).
  - reflexivity.
  - intros i Hi. simpl in *. unfold zeros.
    destruct (Nat.ltb_spec i 13); [reflexivity|lia].
Defined.

(* --------------------------------------------------------------------- *)
(* The divisional round on too few survivors                              *)
(* --------------------------------------------------------------------- *)

Lemma foldl_max_bounds l : ∀ x,
  (x ≤ foldl Nat.max x l)%nat ∧ (∀ s, s ∈ l → (s ≤ foldl Nat.max x l)%nat) ∧
  (foldl Nat.max x l = x ∨ foldl Nat.max x l ∈ l).
Proof.
  induction l as [|y l IH]; intros x; simpl.
  - split; [lia|]. split; [|by left]. intros s Hs. by apply elem_of_nil in Hs.
  - destruct (IH (Nat.max x y)) as (H1 & H2 & H3).
    split; [lia|]. split.
    + intros s Hs. apply elem_of_cons in Hs as [-> | Hs]; [lia|by apply H2].
    + destruct H3 as [H3|H3]; [|right; by apply list_elem_of_further].
      rewrite H3. destruct (Nat.max_spec x y) as [[_ ->]|[_ ->]]; [|by left].
      right. apply list_elem_of_here.
Qed.

Lemma py_max_is_max l m :
  py_max l = Ok m → m ∈ l ∧ ∀ s, s ∈ l → (s ≤ m)%nat.
Proof.
  destruct l as [|x l]; [discriminate|]. simpl. intros [= <-].
  destruct (foldl_max_bounds l x) as (H1 & H2 & H3). split.
  - destruct H3 as [-> | H3]; [apply list_elem_of_here|by apply list_elem_of_further].
  - intros s Hs. apply elem_of_cons in Hs as [-> | Hs]; [done|by apply H2].
Qed.

(** X19. The divisional round does not check how many survivors it is
    given. Handed teams of seed 1 and of a single other seed only, an
    empty list included, it raises ValueError, from max() or min() of an
    empty list, before any game is resolved or any variate drawn. *)
Theorem divisional_needs_three_seeds seeds elo hfa w winners t1 tx x :
  NoDup seeds.*2 →
  seed_team seeds 1 = Ok t1 → seed_team seeds x = Ok tx → (1 < x)%nat →
  Forall (λ t, t = t1 ∨ t = tx) winners →
  simulate_divisional winners seeds elo hfa w = (Raise ValueError, w).
Proof.
  intros Hnd H1 Hx Hlt Hwin.
  pose proof (team_to_seed_of _ _ _ Hnd H1) as S1.
  pose proof (team_to_seed_of _ _ _ Hnd Hx) as Sx.
  set (f := λ t, default 0%nat (team_to_seed seeds !! t)).
  assert (Hss : seeds_of_teams (team_to_seed seeds) winners = Ok (f <$> winners)).
  { apply seeds_of_teams_fmap. intros t Ht. rewrite Forall_forall in Hwin.
    destruct (Hwin t Ht) as [-> | ->]; eauto. }
  assert (Hin : ∀ s, s ∈ sorted (f <$> winners) → s = 1%nat ∨ s = x).
  { intros s Hs. unfold sorted in Hs. rewrite merge_sort_Permutation in Hs.
    apply list_elem_of_fmap in Hs as (t & -> & Ht). rewrite Forall_forall in Hwin.
    unfold f. destruct (Hwin t Ht) as [-> | ->]; [rewrite S1|rewrite Sx]; auto. }
  unfold simulate_divisional.
  rewrite (bind_lift_ok _ _ _ _ Hss). cbv zeta.
  rewrite (bind_lift_ok _ _ _ _ H1).
  destruct (py_max (sorted (f <$> winners))) as [lo|e] eqn:Hmax.
  2:{ destruct (sorted (f <$> winners)); [|discriminate].
      simpl in Hmax. injection Hmax as <-. reflexivity. }
  rewrite (bind_lift_ok (Ok lo) _ _ lo eq_refl).
  destruct (py_max_is_max _ _ Hmax) as [Hlo Hle].
  assert (Htlo : ∃ tlo, seed_team seeds lo = Ok tlo)
    by (destruct (Hin lo Hlo) as [-> | ->]; eauto).
  destruct Htlo as [tlo Htlo]. rewrite (bind_lift_ok _ _ _ _ Htlo).
  assert (Hnone : filter (λ s, s ≠ 1%nat ∧ s ≠ lo) (sorted (f <$> winners)) = []).
  { destruct (filter _ _) as [|s rest] eqn:E; [done|]. exfalso.
    assert (Hs : s ∈ filter (λ s, s ≠ 1%nat ∧ s ≠ lo) (sorted (f <$> winners)))
      by (rewrite E; apply list_elem_of_here).
    apply list_elem_of_filter in Hs as [[Hs1 Hs2] Hs].
    destruct (Hin s Hs) as [-> | ->]; [done|].
    destruct (Hin lo Hlo) as [-> | ->]; [|done].
    specialize (Hle x Hs). lia. }
  rewrite Hnone. reflexivity.
Qed.

Lemma divisional_needs_three_seeds_witness :
  simulate_divisional ["DEN"; "LAC"] PLAYOFF_SEEDS_AFC level_table 55 (start zeros)
  = (Raise ValueError, start zeros).
Proof.
  apply (divisional_needs_three_seeds PLAYOFF_SEEDS_AFC level_table 55 (start zeros)
           ["DEN"; "LAC"] "DEN" "LAC" 7).
  - exact afc_teams_distinct.
  - reflexivity.
  - reflexivity.
  - lia.
  - constructor; [by left|]. constructor; [by right|]. constructor.
Defined.

End PlayoffMore.

(* ===================================================================== *)
(* Facts about the win probability in binary64                            *)
(* ===================================================================== *)
Module DoubleFacts.
Import PrimFloat Doubles.
Local Open Scope float_scope.

(** C6, as stated, fails: the doubles computed for ratings 1303 and 1500
    at a neutral site are 0x1.f285df95b74e0p-3 and 0x1.835e881a922c7p-1,
    and their sum in binary64 is the double just below 1, 1 - 2^-53. *)
Lemma doubles_miss_complement :
  let p := compute_win_probability libm_pow in
  p 1303 1500 55 true = 0x1.f285df95b74e0p-3 ∧
  p 1500 1303 55 true = 0x1.835e881a922c7p-1 ∧
  p 1303 1500 55 true + p 1500 1303 55 true = 0x1.fffffffffffffp-1 ∧
  (p 1303 1500 55 true + p 1500 1303 55 true =? 1) = false.
Proof. repeat split; reflexivity. Qed.

(** For a host rated 8000 against a visitor rated 1500, the power is
    below half the gap between 1 and the next double, and the probability
    of the code is exactly 1. *)
Lemma large_gap_saturates :
  compute_win_probability libm_pow 8000 1500 55 false = 1 ∧
  (libm_pow 10 (- ((8000 + 55) - 1500) / 400) <? 0x1p-53) = true.
Proof. split; reflexivity. Qed.

End DoubleFacts.
